(** * ancient_book_reader: the page-render worker and the file dialog

    A shallow embedding of [src/ancient_book_reader.py]:

    - [PDFRenderThread]: the bounded task queue ([queue.Queue(maxsize=10)]),
      [add_task] with its pass over the pending tasks, [stop], and the body of
      [run], the worker loop;
    - [FileListDialog]: [scan_pdf_files], [open_selected_file] and
      [delete_selected_files].

    Python exceptions are values of [result]; the calls the program makes on
    its collaborators (the PDF engine, Qt, the file system) are recorded as
    events, so that "is invoked", "is attempted" and "is reported" are
    statements about a trace.  A Python float is the rational it stands for
    ([Q]); the one rounded operation of the program, the division, is taken
    as it is given ([FloatDiv]). *)

From Stdlib Require Import QArith Qminmax Qabs Lqa.
From stdpp Require Import gmap strings list fin_maps pretty sorting.

Set Default Proof Using "Type".

(** ** Exceptions *)

(** An exception of class [Exception], the class that the handlers of the
    program catch, is represented by [str(e)]. *)
Definition exn := string.

Inductive result (A : Type) : Type :=
  | Ok (a : A)
  | Raise (e : exn).
Arguments Ok {A} a.
Arguments Raise {A} e.

Definition is_ok {A} (r : result A) : bool :=
  match r with Ok _ => true | Raise _ => false end.

(** ** Numbers *)

(** The quotient of two floats as the machine computes it: the double
    next to the exact quotient. *)
Class FloatDiv := { float_div : Q → Q → Q }.

(** [a / b] on Python numbers: [ZeroDivisionError] on a zero divisor,
    otherwise the rounded quotient. *)
Definition py_div `{FloatDiv} (a b : Q) : result Q :=
  if Qeq_bool b 0 then Raise "float division by zero" else Ok (float_div a b).

(** The rounding error of [a / b] is at most [eps] times the exact
    quotient. *)
Definition accurate `{FloatDiv} (eps a b : Q) : Prop :=
  (Qabs (float_div a b - a / b) <= eps * Qabs (a / b))%Q.

(** [min(a, b)]: the first argument, unless the second is strictly smaller. *)
Definition py_min (a b : Q) : Q := if Qle_bool a b then a else b.

(** ** The collaborators of the worker *)

(** [fitz.Matrix(sx, sy)], a scaling matrix. *)
Record Matrix := { sx : Q; sy : Q }.

(** The image types that travel from the PDF engine to Qt, and the three
    conversions of [run]: [pix.tobytes("png")], [QImage.fromData(_, "PNG")]
    and [QPixmap.fromImage]. *)
Class Imaging := {
  Pix : Type;
  PngData : Type;
  QImage : Type;
  QPixmap : Type;
  tobytes : Pix → result PngData;
  fromData : PngData → result QImage;
  fromImage : QImage → result QPixmap
}.

Module Render.
Section Worker.
Context `{Imaging} `{FloatDiv}.

(** A page object of the engine: [page.rect] as (width, height) and
    [page.get_pixmap(matrix=_, colorspace="rgb", alpha=False)]. *)
Record Page := {
  rect : result (Q * Q);
  get_pixmap : Matrix → result Pix
}.

(** The arguments of a completion callback:
    [callback(page_num, pixmap, scale, original_width, original_height)];
    [cb_pixmap = None] is Python's [None]. *)
Record CallbackArgs := {
  cb_page_num : Z;
  cb_pixmap : option QPixmap;
  cb_scale : Q;
  cb_width : Q;
  cb_height : Q
}.

(** A callback is a callable object: [cb_id] is its identity and [cb_call]
    tells whether a call with the given arguments returns or raises. *)
Record Callback := {
  cb_id : nat;
  cb_call : CallbackArgs → result unit
}.

(** The tuple [(page_num, page, target_size, callback)]. *)
Record Task := {
  page_num : Z;
  page : Page;
  target_size : Q * Q;
  callback : Callback
}.

(** What the worker does to the outside. *)
Inductive event :=
  | EvGetPixmap (n : Z) (mat : Matrix)
  | EvCallback (cb : nat) (args : CallbackArgs)
  | EvPrint (msg : string).

(** *** Computations that log events and may raise *)

Definition M (A : Type) : Type := list event * result A.

Definition ret {A} (a : A) : M A := ([], Ok a).

Definition bind {A B} (c : M A) (k : A → M B) : M B :=
  match c with
  | (ev, Ok a) => let '(ev', r) := k a in (ev ++ ev', r)
  | (ev, Raise e) => (ev, Raise e)
  end.

Definition lift {A} (r : result A) : M A := ([], r).

Definition emit (e : event) : M unit := ([e], Ok tt).

(** [try: body  except Exception as e: handler(e)] *)
Definition try_except {A} (body : M A) (handler : exn → M A) : M A :=
  match body with
  | (ev, Ok a) => (ev, Ok a)
  | (ev, Raise e) => let '(ev', r) := handler e in (ev ++ ev', r)
  end.

Notation "'let*' x := c 'in' k" := (bind c (λ x, k))
  (at level 10, x name, c at level 100, k at level 200, only parsing).

Definition call (cb : Callback) (args : CallbackArgs) : M unit :=
  let* _ := emit (EvCallback (cb_id cb) args) in lift (cb_call cb args).

Definition print (msg : string) : M unit := emit (EvPrint msg).

(** *** [run]: one task *)

(** Lines 35-56 of [run]: from the page to the [QPixmap], with the scale
    and the original size. *)
Definition render (t : Task) : M (QPixmap * Q * Q * Q) :=
  let* page_rect := lift (rect (page t)) in
  let original_width := page_rect.1 in
  let original_height := page_rect.2 in
  let '(target_width, target_height) := target_size t in
  let* width_ratio := lift (py_div target_width original_width) in
  let* height_ratio := lift (py_div target_height original_height) in
  let scale := py_min width_ratio height_ratio in
  let mat := {| sx := scale; sy := scale |} in
  let* _ := emit (EvGetPixmap (page_num t) mat) in
  let* pix := lift (get_pixmap (page t) mat) in
  let* img_data := lift (tobytes pix) in
  let* image := lift (fromData img_data) in
  let* pixmap := lift (fromImage image) in
  ret (pixmap, scale, original_width, original_height).

Definition success_args (t : Task) (r : QPixmap * Q * Q * Q) : CallbackArgs :=
  let '(pixmap, scale, original_width, original_height) := r in
  {| cb_page_num := page_num t; cb_pixmap := Some pixmap; cb_scale := scale;
     cb_width := original_width; cb_height := original_height |}.

(** [callback(page_num, None, 0, 0, 0)] *)
Definition failure_args (t : Task) : CallbackArgs :=
  {| cb_page_num := page_num t; cb_pixmap := None; cb_scale := 0;
     cb_width := 0; cb_height := 0 |}.

(** The inner [try] of [run] (lines 33-63): the callback on the rendered
    page is inside the [try], the one on the null result in its handler. *)
Definition process_task (t : Task) : M unit :=
  try_except
    (let* r := render t in call (callback t) (success_args t r))
    (λ e,
      let* _ := print ("渲染页面 " +:+ pretty (page_num t) +:+ " 失败: " +:+ e) in
      call (callback t) (failure_args t)).

(** *** The queue and the thread *)

(** [queue.Queue(maxsize=10)] *)
Definition maxsize : nat := 10.

(** The thread object: the pending items of [self.queue] (oldest first,
    [None] is the sentinel of [stop]) and [self.running]. *)
Record PDFRenderThread := {
  queue : list (option Task);
  running : bool
}.

Definition set_queue (q : list (option Task)) (s : PDFRenderThread) :=
  {| queue := q; running := running s |}.
Definition set_running (b : bool) (s : PDFRenderThread) :=
  {| queue := queue s; running := b |}.

(** [PDFRenderThread.__init__] *)
Definition init : PDFRenderThread := {| queue := []; running := true |}.

(** How a call made by the submitting thread ends.  [Queue.mutex] is a
    [threading.Lock], which is not reentrant, and [Queue.put] starts with
    [with self.not_full], a condition on that same lock: a [put] by the
    thread that holds [mutex] never gets the lock ([Deadlocked]).  A [put]
    on a full queue waits for a consumer ([WaitsNotFull]). *)
Inductive outcome :=
  | Returned (s : PDFRenderThread)
  | Raised (e : exn) (s : PDFRenderThread)
  | WaitsNotFull (item : option Task) (s : PDFRenderThread)
  | Deadlocked (s : PDFRenderThread).

Definition state_of (o : outcome) : PDFRenderThread :=
  match o with
  | Returned s | Raised _ s | WaitsNotFull _ s | Deadlocked s => s
  end.

(** [self.queue.put(item)], called with or without [self.queue.mutex]
    held by the caller. *)
Definition put (mutex_held : bool) (item : option Task) (s : PDFRenderThread)
    : outcome :=
  if mutex_held then Deadlocked s
  else if decide (maxsize ≤ length (queue s)) then WaitsNotFull item s
  else Returned (set_queue (queue s ++ [item]) s).

(** [for item in items: self.queue.put(item)] *)
Fixpoint put_all (mutex_held : bool) (items : list (option Task))
    (s : PDFRenderThread) : outcome :=
  match items with
  | [] => Returned s
  | item :: items' =>
      match put mutex_held item s with
      | Returned s' => put_all mutex_held items' s'
      | o => o
      end
  end.

(** [[item for item in items if item[0] != page_num]]; subscripting the
    sentinel [None] is a [TypeError]. *)
Fixpoint other_pages (n : Z) (items : list (option Task))
    : result (list (option Task)) :=
  match items with
  | [] => Ok []
  | None :: _ => Raise "'NoneType' object is not subscriptable"
  | Some t :: items' =>
      match other_pages n items' with
      | Ok kept => Ok (if decide (page_num t ≠ n) then Some t :: kept else kept)
      | Raise e => Raise e
      end
  end.

(** [add_task(page_num, page, target_size, callback)]; the new tuple is
    passed as [t]. *)
Definition add_task (t : Task) (s : PDFRenderThread) : outcome :=
  if running s then
    (* with self.queue.mutex: *)
    let items := queue s in
    match other_pages (page_num t) items with
    | Raise e => Raised e s
    | Ok items =>
        let s := set_queue [] s in
        match put_all true items s with
        | Returned s =>
            (* the lock is released here *)
            put false (Some t) s
        | o => o
        end
    end
  else Returned s.

(** [stop()] *)
Definition stop (s : PDFRenderThread) : outcome :=
  put false None (set_running false s).

(** *** [run]: the loop *)

(** One pass through [while self.running: ...]. *)
Inductive iteration :=
  | LoopExit (s : PDFRenderThread)
  | LoopNext (ev : list event) (s : PDFRenderThread).

(** The body of the loop: [self.queue.get(timeout=0.05)] and what follows. *)
Definition loop_body (s : PDFRenderThread) : iteration :=
  match queue s with
  | [] => LoopNext [] s                      (* queue.Empty: continue *)
  | None :: q => LoopExit (set_queue q s)    (* break *)
  | Some t :: q =>
      (* the outer [except Exception] prints and goes on *)
      let '(ev, _) :=
        try_except (process_task t)
          (λ e, print ("渲染线程错误: " +:+ e)) in
      LoopNext ev (set_queue q s)
  end.

Definition run_iteration (s : PDFRenderThread) : iteration :=
  if running s then loop_body s else LoopExit s.

(** [run] for at most [fuel] passes; [true] when the loop has been left. *)
Fixpoint run (fuel : nat) (s : PDFRenderThread)
    : list event * PDFRenderThread * bool :=
  match fuel with
  | O => ([], s, false)
  | S fuel' =>
      match run_iteration s with
      | LoopExit s' => ([], s', true)
      | LoopNext ev s' =>
          let '(ev', s'', b) := run fuel' s' in (ev ++ ev', s'', b)
      end
  end.

(** *** What the program can observe *)

(** The callback invocations of a trace, in order. *)
Definition callbacks (ev : list event) : list (nat * CallbackArgs) :=
  omap (λ e, match e with EvCallback c a => Some (c, a) | _ => None end) ev.

(** The rasterizer calls of a trace, in order. *)
Definition rasterized (ev : list event) : list (Z * Matrix) :=
  omap (λ e, match e with EvGetPixmap n m => Some (n, m) | _ => None end) ev.

(** The page of a queued item; the sentinel has none. *)
Definition item_page (item : option Task) : option Z := page_num <$> item.

(** The pending tasks for page [n], oldest first. *)
Definition pending_for (n : Z) (q : list (option Task)) : list (option Task) :=
  filter (λ item, item_page item = Some n) q.

(** The pending items that are not tasks for page [n]. *)
Definition pending_not_for (n : Z) (q : list (option Task))
    : list (option Task) :=
  filter (λ item, item_page item ≠ Some n) q.

(** Submitting the tasks of a list one after the other; a call that does
    not return ends the sequence. *)
Fixpoint add_tasks (ts : list Task) (s : PDFRenderThread) : outcome :=
  match ts with
  | [] => Returned s
  | t :: ts' =>
      match add_task t s with
      | Returned s' => add_tasks ts' s'
      | o => o
      end
  end.

(** The states of the thread object that its own code produces: from
    [__init__], by calls of [add_task] and [stop] that return, and by the
    worker going through the body of its loop. *)
Inductive reachable : PDFRenderThread → Prop :=
  | reach_init : reachable init
  | reach_add_task t s s' :
      reachable s → add_task t s = Returned s' → reachable s'
  | reach_stop s s' :
      reachable s → stop s = Returned s' → reachable s'
  | reach_next s ev s' :
      reachable s → loop_body s = LoopNext ev s' → reachable s'
  | reach_exit s s' :
      reachable s → loop_body s = LoopExit s' → reachable s'.

(** The three ways through the inner [try] of [run]. *)
Inductive processed (t : Task) : M unit → Prop :=
  | processed_ok ev r :
      render t = (ev, Ok r) →
      cb_call (callback t) (success_args t r) = Ok tt →
      processed t
        (ev ++ [EvCallback (cb_id (callback t)) (success_args t r)], Ok tt)
  | processed_callback_raised ev r e msg :
      render t = (ev, Ok r) →
      cb_call (callback t) (success_args t r) = Raise e →
      processed t
        (ev ++ [EvCallback (cb_id (callback t)) (success_args t r);
                EvPrint msg;
                EvCallback (cb_id (callback t)) (failure_args t)],
         cb_call (callback t) (failure_args t))
  | processed_render_raised ev e msg :
      render t = (ev, Raise e) →
      processed t
        (ev ++ [EvPrint msg;
                EvCallback (cb_id (callback t)) (failure_args t)],
         cb_call (callback t) (failure_args t)).

(** While the thread runs, at most one task is pending and the sentinel
    is not in the queue. *)
Definition at_most_one_pending (s : PDFRenderThread) : Prop :=
  running s = true → queue s = [] ∨ ∃ t, queue s = [Some t].

End Worker.
End Render.

(** ** The file dialog *)

(** What the dialog uses of [os], [os.path] and of its parent window.
    [listdir fs d] is the list of names that [os.scandir(d)] yields, in its
    order (none when the directory cannot be read: [glob] swallows that
    error); [glob_dirs fs d] is the list of directories that [glob] finds
    for a directory part [d] in which one of [*], [?] and [[] occurs, and
    which it therefore reads as a pattern; [remove] is [os.remove];
    [save_reading_positions] and [load_pdf_file] are the parent's methods,
    whose code is not part of the dialog. *)
Class Env := {
  FS : Type;
  normcase : string → string;
  path_join : string → string → string;
  abspath : string → string;
  listdir : FS → string → list string;
  glob_dirs : FS → string → list string;
  getmtime : FS → string → result Q;
  remove : FS → string → FS * result unit;
  save_reading_positions : gmap string Z → FS → FS * result unit;
  load_pdf_file : string → result unit
}.

Module Dialog.

(** The line feed of ["\n"]. *)
Definition nl : string := String (Ascii.ascii_of_nat 10) EmptyString.

(** [s.endswith(suffix)] *)
Definition ends_with (suffix s : string) : bool :=
  let n := String.length s in
  let k := String.length suffix in
  if decide (k ≤ n) then
    bool_decide (String.substring (n - k) k s = suffix)
  else false.

(** [glob._ishidden]: the name starts with a dot. *)
Definition ishidden (name : string) : bool := String.prefix "." name.

(** [glob.has_magic]: one of [*], [?] and [[] occurs in the path. *)
Fixpoint has_magic (path : string) : bool :=
  String.prefix "*" path || String.prefix "?" path || String.prefix "[" path ||
  match path with
  | EmptyString => false
  | String _ rest => has_magic rest
  end.

(** The Python sort [l.sort(key=key, reverse=True)] on keyed items: stable,
    larger keys first.  An item goes in front of the items that follow it in
    the list unless their key is strictly larger. *)
Fixpoint insert_desc {A} (x : Q * A) (l : list (Q * A)) : list (Q * A) :=
  match l with
  | [] => [x]
  | y :: l' =>
      if Qle_bool y.1 x.1 then x :: y :: l' else y :: insert_desc x l'
  end.

Definition sort_desc {A} (l : list (Q * A)) : list (Q * A) :=
  foldr insert_desc [] l.

(** The keys of [sort] are computed first, in order; the first call of
    [key] that raises ends the sort and leaves the list as it was. *)
Fixpoint with_keys {A} (key : A → result Q) (l : list A)
    : result (list (Q * A)) :=
  match l with
  | [] => Ok []
  | x :: l' =>
      match key x with
      | Raise e => Raise e
      | Ok k =>
          match with_keys key l' with
          | Raise e => Raise e
          | Ok kl => Ok ((k, x) :: kl)
          end
      end
  end.

Definition py_sort_reverse {A} (key : A → result Q) (l : list A)
    : result (list A) :=
  match with_keys key l with
  | Raise e => Raise e
  | Ok kl => Ok (snd <$> sort_desc kl)
  end.

(** An entry of the list widget: its text, the path under [Qt.UserRole] and
    the file name under [Qt.UserRole + 1]. *)
Record Item := {
  item_text : string;
  item_path : string;
  item_name : string
}.

(** The calls the dialog makes. *)
Inductive event :=
  | EvWarning (title text : string)
  | EvQuestion (title text : string)
  | EvInformation (title text : string)
  | EvRemove (path : string) (ok : bool)
  | EvSave (positions : gmap string Z) (ok : bool)
  | EvPrint (msg : string)
  | EvLoadPdf (path : string)
  | EvAccept
  | EvLoadFileList.

(** The calls of [os.remove] in a trace: the path, and whether the call
    returned. *)
Definition removals (ev : list event) : list (string * bool) :=
  omap (λ e, match e with EvRemove p ok => Some (p, ok) | _ => None end) ev.

(** The paths whose [os.remove] returned. *)
Definition removed (ev : list event) : list string :=
  omap (λ e, match e with EvRemove p true => Some p | _ => None end) ev.

(** The warning and information boxes of a trace. *)
Definition message_boxes (ev : list event) : list event :=
  omap (λ e, match e with
             | EvWarning _ _ | EvInformation _ _ => Some e
             | _ => None
             end) ev.

(** The files handed to [load_pdf_file]. *)
Definition loads (ev : list event) : list string :=
  omap (λ e, match e with EvLoadPdf p => Some p | _ => None end) ev.

(** Larger keys first. *)
Definition key_ge {A} (a b : Q * A) : Prop := (b.1 <= a.1)%Q.

Section FileListDialog.
Context `{Env}.

(** [os.path.dirname(os.path.abspath(__file__))] *)
Variable current_dir : string.

(** *** [scan_pdf_files] *)

(** [fnmatch] of a name against ["*.pdf"]. *)
Definition fnmatch_pdf (name : string) : bool :=
  ends_with ".pdf" (normcase name).

(** [glob._glob1(d, "*.pdf")], each name joined to [d]: the names of the
    directory that are not hidden and match. *)
Definition glob_in (fs : FS) (d : string) : list string :=
  path_join d <$>
    List.filter (λ name, negb (ishidden name) && fnmatch_pdf name)
      (listdir fs d).

(** [glob.glob(os.path.join(current_dir, "*.pdf"))].  [glob] splits the
    path into the directory and ["*.pdf"]; the directory is the one that
    [os.path.dirname] returned.  It is not escaped: when it has a magic
    character, [glob] expands it as a pattern and looks into every directory
    that it finds. *)
Definition glob_pdf (fs : FS) : list string :=
  let dirs :=
    if has_magic current_dir then glob_dirs fs current_dir
    else [current_dir] in
  concat (glob_in fs <$> dirs).

Definition scan_pdf_files (fs : FS) : list event * list string :=
  let pdf_files := glob_pdf fs in
  match py_sort_reverse (getmtime fs) pdf_files with
  | Ok sorted => ([], sorted)
  | Raise e => ([EvPrint ("扫描错误: " +:+ e)], pdf_files)
  end.

(** [p] was modified at the time of [q] or later. *)
Definition newer_or_same (fs : FS) (p q : string) : Prop :=
  match getmtime fs p, getmtime fs q with
  | Ok a, Ok b => (b <= a)%Q
  | _, _ => False
  end.

(** *** [open_selected_file] *)

Definition open_selected_file (selected_items : list Item)
    : list event * result unit :=
  match selected_items with
  | [] => ([EvWarning "提示" "请先选择要打开的文件"], Ok tt)
  | item :: _ =>
      let file_path := item_path item in
      match load_pdf_file file_path with
      | Ok _ => ([EvLoadPdf file_path; EvAccept], Ok tt)
      | Raise e => ([EvLoadPdf file_path], Raise e)
      end
  end.

(** *** [delete_selected_files] *)

(** The variables of the loop, the file system and the dictionary
    [self.parent.reading_positions]. *)
Record Deletion := {
  fs : FS;
  reading_positions : gmap string Z;
  deleted_count : nat;
  failed_files : list string;
  events : list event
}.

(** The [except] branch of the loop body. *)
Definition failed (file_name : string) (e : exn) (fs' : FS)
    (positions : gmap string Z) (ev : list event) (d : Deletion) : Deletion :=
  {| fs := fs';
     reading_positions := positions;
     deleted_count := deleted_count d;
     failed_files := failed_files d ++ [file_name +:+ ": " +:+ e];
     events := events d ++ ev ++
               [EvPrint ("删除文件失败 " +:+ file_name +:+ ": " +:+ e)] |}.

(** The end of the [try] branch. *)
Definition deleted (file_name : string) (fs' : FS)
    (positions : gmap string Z) (ev : list event) (d : Deletion) : Deletion :=
  {| fs := fs';
     reading_positions := positions;
     deleted_count := S (deleted_count d);
     failed_files := failed_files d;
     events := events d ++ ev ++ [EvPrint ("已删除文件: " +:+ file_name)] |}.

(** The body of [for item in selected_items]. *)
Definition delete_item (d : Deletion) (item : Item) : Deletion :=
  let file_path := item_path item in
  let file_name := item_name item in
  match remove (fs d) file_path with
  | (fs1, Raise e) =>
      failed file_name e fs1 (reading_positions d) [EvRemove file_path false] d
  | (fs1, Ok _) =>
      let file_key := abspath file_path in
      match reading_positions d !! file_key with
      | Some _ =>
          let positions := delete file_key (reading_positions d) in
          match save_reading_positions positions fs1 with
          | (fs2, Ok _) =>
              deleted file_name fs2 positions
                [EvRemove file_path true; EvSave positions true] d
          | (fs2, Raise e) =>
              failed file_name e fs2 positions
                [EvRemove file_path true; EvSave positions false] d
          end
      | None =>
          deleted file_name fs1 (reading_positions d)
            [EvRemove file_path true] d
      end
  end.

Definition delete_loop (selected_items : list Item) (d : Deletion)
    : Deletion :=
  foldl delete_item d selected_items.

(** The message box after the loop. *)
Definition report (d : Deletion) : event :=
  match failed_files d with
  | [] =>
      EvInformation "成功"
        ("已成功删除 " +:+ pretty (deleted_count d) +:+ " 个文件")
  | _ =>
      EvWarning "删除结果"
        ("成功删除 " +:+ pretty (deleted_count d) +:+ " 个文件，失败 "
         +:+ pretty (length (failed_files d)) +:+ " 个:" +:+ nl
         +:+ String.concat nl (failed_files d))
  end.

(** The loop variables before the first pass. *)
Definition start (fs0 : FS) (positions : gmap string Z) (ev : list event)
    : Deletion :=
  {| fs := fs0; reading_positions := positions; deleted_count := 0;
     failed_files := []; events := ev |}.

(** After the loop: the message box and [self.load_file_list()]. *)
Definition finish (d : Deletion) : Deletion :=
  {| fs := fs d; reading_positions := reading_positions d;
     deleted_count := deleted_count d; failed_files := failed_files d;
     events := events d ++ [report d; EvLoadFileList] |}.

Definition confirm_text (file_count : nat) : string :=
  "确定要删除选中的 " +:+ pretty file_count +:+ " 个文件吗？" +:+ nl
  +:+ "此操作无法撤销！".

(** [delete_selected_files], on the selection, the answer to the
    confirmation ([true] for [QMessageBox.Yes]), the file system and the
    reading positions. *)
Definition delete_selected_files (selected_items : list Item) (reply : bool)
    (fs0 : FS) (positions : gmap string Z) : Deletion :=
  match selected_items with
  | [] => start fs0 positions [EvWarning "提示" "请先选择要删除的文件"]
  | _ =>
      let file_count := length selected_items in
      let ask := EvQuestion "确认删除" (confirm_text file_count) in
      if reply then finish (delete_loop selected_items (start fs0 positions [ask]))
      else start fs0 positions [ask]
  end.

End FileListDialog.
End Dialog.

(** ** Concrete collaborators *)

(** A division that commits no rounding error, as it is when the quotient
    is itself a double (1190 / 595, 842 / 842). *)
Definition exact_quotients : FloatDiv := {| float_div := Qdiv |}.

(** An engine whose images remember the matrix they were rendered with. *)
Definition plain_imaging : Imaging :=
  {| Pix := Matrix; PngData := Matrix; QImage := Matrix; QPixmap := Matrix;
     tobytes := Ok; fromData := Ok; fromImage := Ok |}.

Module Samples.
Import Render.
#[local] Existing Instance plain_imaging.
#[local] Existing Instance exact_quotients.

(** An A4 page that renders, and one whose rasterization fails. *)
Definition a4 : @Page plain_imaging :=
  {| rect := Ok (595, 842)%Q;
     get_pixmap := λ mat, Ok (mat : @Pix plain_imaging) |}.
Definition damaged : @Page plain_imaging :=
  {| rect := Ok (595, 842)%Q; get_pixmap := λ _, Raise "cannot render page" |}.

(** A callback that always returns, and one that raises when it is handed
    a bitmap. *)
Definition quiet (id : nat) : @Callback plain_imaging :=
  {| cb_id := id; cb_call := λ _, Ok tt |}.
Definition fussy (id : nat) : @Callback plain_imaging :=
  {| cb_id := id;
     cb_call := λ a, match cb_pixmap a with
                     | Some _ => Raise "display is gone"
                     | None => Ok tt
                     end |}.

Definition task (n : Z) (p : Page) (cb : Callback) : Task :=
  {| page_num := n; page := p; target_size := (1190, 842)%Q; callback := cb |}.

Definition old1 : Task := task 1 a4 (quiet 1).
Definition new1 : Task := task 1 a4 (quiet 2).
Definition other2 : Task := task 2 a4 (quiet 3).
Definition bad3 : Task := task 3 damaged (quiet 4).
Definition fussy4 : Task := task 4 a4 (fussy 5).

(** A directory of files: name, modification time, and whether the file
    can be removed. *)
Record File := {
  f_name : string;
  f_mtime : result Q;
  f_locked : bool
}.

Definition dir : string := "/books".
Definition path_of (name : string) : string := dir +:+ "/" +:+ name.

Definition lookup_file (fs : list File) (path : string) : option File :=
  List.find (λ f, bool_decide (path_of (f_name f) = path)) fs.

Definition posix : Env :=
  {| FS := list File;
     normcase := id;
     path_join := λ d name, d +:+ "/" +:+ name;
     abspath := id;
     listdir := λ fs _, f_name <$> fs;
     glob_dirs := λ _ _, [];
     getmtime := λ fs path,
       match lookup_file fs path with
       | Some f => f_mtime f
       | None => Raise "No such file or directory"
       end;
     remove := λ fs path,
       match lookup_file fs path with
       | Some f =>
           if f_locked f then (fs, Raise "Permission denied")
           else (List.filter (λ g, negb (bool_decide (path_of (f_name g) = path))) fs,
                 Ok tt)
       | None => (fs, Raise "No such file or directory")
       end;
     save_reading_positions := λ _ fs, (fs, Ok tt);
     load_pdf_file := λ _, Ok tt |}.

Definition file (name : string) (mtime : Q) (locked : bool) : File :=
  {| f_name := name; f_mtime := Ok mtime; f_locked := locked |}.

Definition shelf : @FS posix :=
  [file "a.pdf" 10 false; file "b.pdf" 30 true; file "notes.txt" 40 false;
   file "c.pdf" 20 false].

Definition item_of (name : string) : Dialog.Item :=
  {| Dialog.item_text := name; Dialog.item_path := path_of name;
     Dialog.item_name := name |}.

Definition abc : list Dialog.Item :=
  [item_of "a.pdf"; item_of "b.pdf"; item_of "c.pdf"].

Definition positions : gmap string Z :=
  {[ path_of "a.pdf" := 4%Z; path_of "b.pdf" := 7%Z; path_of "c.pdf" := 0%Z ]}.
End Samples.

(** ** The list of the dialog *)

(** What [load_file_list] uses of [os.path] besides [Env]:
    [os.path.basename] and [os.path.getsize] (in bytes). *)
Class FileInfo `{Env} := {
  basename : string → string;
  getsize : FS → string → result Z
}.

Module Listing.
Import Dialog.

(** [f"{size / (1024 * 1024):.1f}"] for a size in bytes.  The quotient by
    2^20 is exact in binary floating point for sizes below 2^53, and the
    format rounds it to one decimal, a tie going to the even digit. *)
Definition tenths_of_mb (size : Z) : Z :=
  let n := (size * 10)%Z in
  let q := (n / 1048576)%Z in
  let r := (n mod 1048576)%Z in
  if decide (r < 524288)%Z then q
  else if decide (524288 < r)%Z then (q + 1)%Z
  else if Z.even q then q else (q + 1)%Z.

Definition format_mb (size : Z) : string :=
  let t := tenths_of_mb size in
  pretty (t / 10)%Z +:+ "." +:+ pretty (t mod 10)%Z.

(** [needle in text] on strings. *)
Fixpoint contains (needle text : string) : bool :=
  String.prefix needle text ||
  match text with
  | EmptyString => false
  | String _ rest => contains needle rest
  end.

(** An entry of [file_list_widget]: the placeholder, which has
    [Qt.NoItemFlags] and no data, or the entry of a file. *)
Inductive row :=
  | Placeholder (text : string)
  | FileRow (item : Item).

(** [item.text()] *)
Definition row_text (r : row) : string :=
  match r with
  | Placeholder text => text
  | FileRow item => item_text item
  end.

(** The item of a row that the user can select. *)
Definition selectable (r : row) : option Item :=
  match r with
  | Placeholder _ => None
  | FileRow item => Some item
  end.

(** The list widget and the text of [status_label]. *)
Record Widgets := {
  rows : list row;
  status_text : string
}.

Section LoadFileList.
Context `{FileInfo}.
Variable current_dir : string.

(** The text of the entry of a file. *)
Definition display_text (file_name : string) (size : Z)
    (last_page : option Z) : string :=
  match last_page with
  | Some last_page =>
      file_name +:+ " (" +:+ format_mb size +:+ "MB) - 读到第"
      +:+ pretty (last_page + 1)%Z +:+ "页"
  | None => file_name +:+ " (" +:+ format_mb size +:+ "MB)"
  end.

(** The entry of a file of [size] bytes. *)
Definition row_for (positions : gmap string Z) (pdf_file : string) (size : Z)
    : row :=
  FileRow {| item_text := display_text (basename pdf_file) size
                            (positions !! abspath pdf_file);
             item_path := pdf_file;
             item_name := basename pdf_file |}.

(** [for pdf_file in pdf_files: ...]: the entries are added one by one; an
    exception of [os.path.getsize] leaves the loop with the entries added
    so far. *)
Fixpoint add_rows (fs : FS) (positions : gmap string Z)
    (pdf_files : list string) (added : list row) : list row * result unit :=
  match pdf_files with
  | [] => (added, Ok tt)
  | pdf_file :: rest =>
      let file_name := basename pdf_file in
      match getsize fs pdf_file with
      | Raise e => (added, Raise e)
      | Ok size =>
          let file_key := abspath pdf_file in
          let text := display_text file_name size (positions !! file_key) in
          let item := {| item_text := text; item_path := pdf_file;
                         item_name := file_name |} in
          add_rows fs positions rest (added ++ [FileRow item])
      end
  end.

(** [load_file_list], on the widgets as they are, the file system and the
    reading positions. *)
Definition load_file_list (w : Widgets) (fs : FS) (positions : gmap string Z)
    : Widgets * list event * result unit :=
  (* self.file_list_widget.clear() *)
  let '(ev, pdf_files) := scan_pdf_files current_dir fs in
  match pdf_files with
  | [] =>
      ({| rows := [Placeholder "未找到PDF文件"];
          status_text := "当前目录没有PDF文件" |}, ev, Ok tt)
  | _ =>
      match add_rows fs positions pdf_files [] with
      | (added, Ok _) =>
          ({| rows := added;
              status_text :=
                "找到 " +:+ pretty (length pdf_files) +:+ " 个PDF文件" |},
           ev, Ok tt)
      | (added, Raise e) =>
          ({| rows := added; status_text := status_text w |}, ev, Raise e)
      end
  end.

(** The test that opens [delete_all_files] (line 279): when it holds the
    method warns that there is nothing to delete and returns. *)
Definition nothing_to_delete (w : Widgets) : bool :=
  match rows w with
  | [] => true
  | [r] => contains "未找到PDF文件" (row_text r)
  | _ => false
  end.

End LoadFileList.
End Listing.

(** ** More observations *)

Module Observed.

(** What the worker does on a task it has dequeued: the inner [try] and the
    outer handler of [run]. *)
Definition task_trace `{Imaging} `{FloatDiv} (t : Render.Task)
    : list Render.event :=
  (Render.try_except (Render.process_task t)
     (λ e, Render.print ("渲染线程错误: " +:+ e))).1.

(** The calls of [save_reading_positions] in a trace, and those of them
    that raised. *)
Definition saves (ev : list Dialog.event) : list (gmap string Z * bool) :=
  omap (λ e, match e with Dialog.EvSave m ok => Some (m, ok) | _ => None end) ev.

Definition failed_saves (ev : list Dialog.event) : list (gmap string Z) :=
  omap (λ e, match e with Dialog.EvSave m false => Some m | _ => None end) ev.

(** The entries of a sorted list that carry a given key, in order. *)
Definition with_key {A} (k : Q) (l : list (Q * A)) : list (Q * A) :=
  List.filter (λ x, Qeq_bool x.1 k) l.

(** Whether the modification time of a path can be read and equals [k]. *)
Definition modified_at `{Env} (fs : FS) (k : Q) (p : string) : bool :=
  match getmtime fs p with
  | Ok a => Qeq_bool a k
  | Raise _ => false
  end.

End Observed.

Module MoreSamples.
Import Render Samples.
#[local] Existing Instance plain_imaging.
#[local] Existing Instance exact_quotients.
#[local] Existing Instance posix.

(** A page without extent. *)
Definition flat : Page := {| rect := Ok (595, 0)%Q; get_pixmap := Ok |}.
Definition flat5 : Task := task 5 flat (quiet 6).

(** File names are the part after the last slash; sizes come from a table. *)
Definition posix_info : FileInfo :=
  {| basename := λ path, String.substring 7 (String.length path - 7) path;
     getsize := λ fs path,
       match lookup_file fs path with
       | Some f =>
           if f_locked f then Ok 262144%Z else Ok 3145728%Z
       | None => Raise "No such file or directory"
       end |}.

(** A shelf with a file whose modification time cannot be read. *)
Definition broken_shelf : @FS posix :=
  [file "a.pdf" 10 false;
   {| f_name := "gone.pdf"; f_mtime := Raise "No such file or directory";
      f_locked := false |};
   file "c.pdf" 20 false].

(** A directory with the single file whose name is the text of the
    placeholder. *)
Definition odd_shelf : @FS posix := [file "未找到PDF文件.pdf" 10 false].

Definition blank : Listing.Widgets :=
  {| Listing.rows := []; Listing.status_text := EmptyString |}.

(** Sizes that cannot be read for locked files. *)
Definition strict_info : FileInfo :=
  {| basename := λ path, String.substring 7 (String.length path - 7) path;
     getsize := λ fs path,
       match lookup_file fs path with
       | Some f =>
           if f_locked f then Raise "Permission denied" else Ok 3145728%Z
       | None => Raise "No such file or directory"
       end |}.

End MoreSamples.

(** * Properties of the render worker *)

Module RenderFacts.
Import Render.

Lemma py_min_Qmin (a b : Q) : py_min a b = Qmin a b.
Proof.
  unfold py_min, Qmin, GenericMinMax.gmin.
  destruct (Qle_bool a b) eqn:Hle.
  - apply Qle_bool_iff in Hle.
    destruct (a ?= b)%Q eqn:Hc; try reflexivity.
    apply Qgt_alt in Hc. exfalso. exact (Qlt_not_le _ _ Hc Hle).
  - destruct (a ?= b)%Q eqn:Hc; try reflexivity; exfalso.
    + apply Qeq_alt in Hc.
      assert (Hab : (a <= b)%Q) by (rewrite Hc; apply Qle_refl).
      apply Qle_bool_iff in Hab. congruence.
    + apply Qlt_alt, Qlt_le_weak, Qle_bool_iff in Hc. congruence.
Qed.

(** The minimum moves no further than its arguments. *)
Lemma Qmin_close (a b a' b' ea eb : Q) :
  (Qabs (a' - a) <= ea)%Q → (Qabs (b' - b) <= eb)%Q →
  (Qabs (Qmin a' b' - Qmin a b) <= Qmax ea eb)%Q.
Proof.
  intros Ha Hb.
  apply Qabs_Qle_condition in Ha as [Ha1 Ha2].
  apply Qabs_Qle_condition in Hb as [Hb1 Hb2].
  apply Qabs_Qle_condition.
  destruct (Q.min_spec a b) as [[H1 E1]|[H1 E1]];
    destruct (Q.min_spec a' b') as [[H2 E2]|[H2 E2]];
    destruct (Q.max_spec ea eb) as [[H3 E3]|[H3 E3]];
    rewrite E1, E2, E3; split; lra.
Qed.

Lemma py_div_nonzero `{FloatDiv} (a b : Q) :
  ¬ (b == 0)%Q → py_div a b = Ok (float_div a b).
Proof.
  intros Hb. unfold py_div.
  destruct (Qeq_bool b 0) eqn:E; [|reflexivity].
  apply Qeq_bool_iff in E. contradiction.
Qed.

Lemma py_div_zero `{FloatDiv} (a b : Q) :
  (b == 0)%Q → is_ok (py_div a b) = false.
Proof.
  intros Hb. unfold py_div. apply Qeq_bool_iff in Hb. by rewrite Hb.
Qed.

Section Facts.
Context `{Imaging} `{FloatDiv}.

Implicit Types (t : Task) (s : PDFRenderThread) (q : list (option Task)).

Lemma callbacks_app (ev ev' : list event) :
  callbacks (ev ++ ev') = callbacks ev ++ callbacks ev'.
Proof. apply omap_app. Qed.

Lemma rasterized_app (ev ev' : list event) :
  rasterized (ev ++ ev') = rasterized ev ++ rasterized ev'.
Proof. apply omap_app. Qed.

(** *** One task *)

(** [render] calls no callback; it calls the rasterizer at most once,
    and exactly once when it returns. *)
Lemma render_trace t :
  callbacks (render t).1 = [] ∧
  ((render t).1 = [] ∧ is_ok (render t).2 = false ∨
   ∃ mat, (render t).1 = [EvGetPixmap (page_num t) mat]).
Proof.
  unfold render, bind, lift, emit, ret.
  destruct (rect (page t)) as [[w h]|e]; simpl; [|by auto].
  destruct (target_size t) as [tw th]; simpl.
  destruct (py_div tw w); simpl; [|by auto].
  destruct (py_div th h); simpl; [|by auto].
  destruct (get_pixmap _ _); simpl; [|by eauto].
  destruct (tobytes _); simpl; [|by eauto].
  destruct (fromData _); simpl; [|by eauto].
  destruct (fromImage _); simpl; by eauto.
Qed.

Lemma process_task_processed t : processed t (process_task t).
Proof.
  unfold process_task, try_except, call, bind, lift, emit, print.
  destruct (render t) as [ev [r|e]] eqn:Hr; simpl.
  - destruct (cb_call (callback t) (success_args t r)) as [[]|e] eqn:Hc; simpl.
    + by apply processed_ok.
    + rewrite <- app_assoc. simpl. by eapply processed_callback_raised.
  - by eapply processed_render_raised.
Qed.

(** *** The queue *)

Lemma other_pages_running_cases t s :
  running s = true →
  match other_pages (page_num t) (queue s) with
  | Raise e => add_task t s = Raised e s
  | Ok [] => add_task t s = Returned (set_queue [Some t] s)
  | Ok (_ :: _) => add_task t s = Deadlocked (set_queue [] s)
  end.
Proof.
  intros Hrun. unfold add_task. rewrite Hrun.
  destruct (other_pages (page_num t) (queue s)) as [[|item items]|e];
    reflexivity.
Qed.

Lemma add_task_stopped t s : running s = false → add_task t s = Returned s.
Proof. intros Hrun. unfold add_task. by rewrite Hrun. Qed.

Lemma reachable_at_most_one_pending s :
  reachable s → at_most_one_pending s.
Proof.
  induction 1 as [|t s s' _ IH Hadd|s s' _ IH Hstop|s ev s' _ IH Hbody
                 |s s' _ IH Hbody]; intros Hrun.
  - by left.
  - destruct (running s) eqn:Hs.
    + pose proof (other_pages_running_cases t s Hs) as Hc.
      destruct (other_pages (page_num t) (queue s)) as [[|? ?]|?];
        rewrite Hc in Hadd; try discriminate.
      injection Hadd as <-. right. by exists t.
    + rewrite add_task_stopped in Hadd by done.
      injection Hadd as <-. congruence.
  - unfold stop, put in Hstop. simpl in Hstop.
    destruct (decide _); [discriminate|].
    injection Hstop as <-. simpl in Hrun. discriminate.
  - unfold loop_body in Hbody.
    destruct (queue s) as [|[t|] q] eqn:Hq.
    + injection Hbody as _ <-. by apply IH.
    + destruct (try_except _ _). injection Hbody as _ <-.
      simpl in *. apply IH in Hrun as [E|[t' E]]; rewrite Hq in E;
        [discriminate|].
      injection E as _ ->. by left.
    + discriminate.
  - unfold loop_body in Hbody.
    destruct (queue s) as [|[t|] q] eqn:Hq.
    + discriminate.
    + by destruct (try_except _ _).
    + injection Hbody as <-. simpl in *.
      apply IH in Hrun as [E|[t' E]]; rewrite Hq in E; discriminate.
Qed.

Lemma loop_body_task t q s :
  queue s = Some t :: q →
  ∃ ev, loop_body s = LoopNext ev (set_queue q s) ∧
        callbacks ev = callbacks (process_task t).1 ∧
        rasterized ev = rasterized (process_task t).1.
Proof.
  intros Hq. unfold loop_body. rewrite Hq. unfold try_except, print, emit.
  destruct (process_task t) as [ev [[]|e]]; simpl.
  - by exists ev.
  - exists (ev ++ [EvPrint ("渲染线程错误: " +:+ e)]).
    rewrite callbacks_app, rasterized_app. simpl.
    by rewrite !app_nil_r.
Qed.

(** With a page of non-zero size, [render] reaches the rasterizer, and
    what it returns carries the scale it computed. *)
Lemma render_sized t (w h : Q) :
  rect (page t) = Ok (w, h) → ¬ (w == 0)%Q → ¬ (h == 0)%Q →
  let scale := py_min (float_div (target_size t).1 w)
                      (float_div (target_size t).2 h) in
  (render t).1 = [EvGetPixmap (page_num t) {| sx := scale; sy := scale |}] ∧
  ∀ r, (render t).2 = Ok r → ∃ pixmap, r = (pixmap, scale, w, h).
Proof.
  intros Hrect Hw Hh. unfold render, bind, lift, emit, ret.
  rewrite Hrect. destruct (target_size t) as [tw th]. simpl.
  rewrite (py_div_nonzero tw w Hw), (py_div_nonzero th h Hh). simpl.
  destruct (get_pixmap _ _); simpl; [|by split].
  destruct (tobytes _); simpl; [|by split].
  destruct (fromData _); simpl; [|by split].
  destruct (fromImage _) as [pixmap|]; simpl; [|by split].
  split; [done|]. intros r [= <-]. by exists pixmap.
Qed.

(** C1 (amended).  For every call of add_task on a thread that is still
    running (stop() has not been called), submitting a task for page N
    while an older task for page N is still queued: the call returns, and
    after it exactly one task for page N is in the queue, the newly
    submitted one.  The thread ranges over the states its own methods and
    its worker produce. *)
Theorem add_task_supersedes_pending t s :
  reachable s → running s = true →
  pending_for (page_num t) (queue s) ≠ [] →
  ∃ s', add_task t s = Returned s' ∧
        pending_for (page_num t) (queue s') = [Some t].
Proof.
  intros Hreach Hrun Hold.
  destruct (reachable_at_most_one_pending s Hreach Hrun) as [Hq|[old Hq]];
    rewrite Hq in Hold; [done|].
  assert (page_num old = page_num t) as Hpage.
  { unfold pending_for in Hold. rewrite filter_cons in Hold.
    destruct (decide (item_page (Some old) = Some (page_num t)))
      as [[= ?]|]; done. }
  pose proof (other_pages_running_cases t s Hrun) as Hadd.
  rewrite Hq in Hadd. simpl in Hadd.
  destruct (decide (page_num old ≠ page_num t)); [done|].
  eexists. split; [exact Hadd|].
  unfold pending_for. simpl. rewrite filter_cons, filter_nil.
  by rewrite decide_True.
Qed.

(** When the engine and the three conversions return, so does [render],
    with the bitmap, the scale and the size of the page. *)
Lemma render_returns t (w h : Q) pix data image pixmap :
  rect (page t) = Ok (w, h) → ¬ (w == 0)%Q → ¬ (h == 0)%Q →
  let scale := py_min (float_div (target_size t).1 w)
                      (float_div (target_size t).2 h) in
  get_pixmap (page t) {| sx := scale; sy := scale |} = Ok pix →
  tobytes pix = Ok data → fromData data = Ok image →
  fromImage image = Ok pixmap →
  render t = ([EvGetPixmap (page_num t) {| sx := scale; sy := scale |}],
              Ok (pixmap, scale, w, h)).
Proof.
  intros Hrect Hw Hh scale Hpix Hdata Himage Hpixmap.
  unfold render, bind, lift, emit, ret.
  rewrite Hrect. unfold scale in *. destruct (target_size t) as [tw th].
  simpl in *.
  rewrite (py_div_nonzero tw w Hw), (py_div_nonzero th h Hh). simpl.
  by rewrite Hpix, Hdata, Himage, Hpixmap.
Qed.

(** C2.  For a page of size (w, h) with w > 0 and h > 0 and a target size
    (W, H), the worker calls the rasterizer once, with the matrix of scale
    min(W/w, H/h) in both directions, the quotients being those of the
    machine; when the engine and the conversions return, the callback is
    invoked with the bitmap, that same scale and the size of the page, and
    no invocation that carries a bitmap carries another scale.  The scale
    differs from the minimum of the exact quotients by no more than the
    larger rounding error of the two divisions. *)
Theorem scale_is_min_ratio t (w h : Q) :
  rect (page t) = Ok (w, h) → (0 < w)%Q → (0 < h)%Q →
  let tw := (target_size t).1 in
  let th := (target_size t).2 in
  let scale := Qmin (float_div tw w) (float_div th h) in
  rasterized (process_task t).1
    = [(page_num t, {| sx := scale; sy := scale |})] ∧
  (∀ pix data image pixmap,
     get_pixmap (page t) {| sx := scale; sy := scale |} = Ok pix →
     tobytes pix = Ok data → fromData data = Ok image →
     fromImage image = Ok pixmap →
     ∃ rest,
       callbacks (process_task t).1
         = (cb_id (callback t),
            {| cb_page_num := page_num t; cb_pixmap := Some pixmap;
               cb_scale := scale; cb_width := w; cb_height := h |}) :: rest) ∧
  (∀ c args, (c, args) ∈ callbacks (process_task t).1 →
             is_Some (cb_pixmap args) → cb_scale args = scale) ∧
  (∀ eps, accurate eps tw w → accurate eps th h →
     (Qabs (scale - Qmin (tw / w) (th / h))
      <= Qmax (eps * Qabs (tw / w)) (eps * Qabs (th / h)))%Q).
Proof.
  intros Hrect Hw Hh tw th scale.
  assert (¬ (w == 0)%Q) as Hw0 by (intros E; rewrite E in Hw; by apply Qlt_irrefl in Hw).
  assert (¬ (h == 0)%Q) as Hh0 by (intros E; rewrite E in Hh; by apply Qlt_irrefl in Hh).
  destruct (render_sized t w h Hrect Hw0 Hh0) as [Hev Hres].
  pose proof (render_returns t w h) as Hret.
  rewrite py_min_Qmin in Hev, Hres, Hret.
  fold tw th in Hev, Hres, Hret. fold scale in Hev, Hres, Hret.
  destruct (render_trace t) as [Hcb _].
  split; [|split; [|split]].
  - destruct (process_task_processed t)
      as [ev r Hr Hc|ev r e msg Hr Hc|ev e msg Hr];
      rewrite Hr in Hev; simpl in Hev |- *; subst ev;
      by rewrite rasterized_app.
  - intros pix data image pixmap Hpix Hdata Himage Hpixmap.
    specialize (Hret pix data image pixmap Hrect Hw0 Hh0 Hpix Hdata Himage
                  Hpixmap).
    destruct (process_task_processed t)
      as [ev r Hr Hc|ev r e msg Hr Hc|ev e msg Hr];
      rewrite Hret in Hr; try discriminate;
      injection Hr as <- <-; simpl; by eexists.
  - intros c args Hin Hpix.
    destruct (process_task_processed t)
      as [ev r Hr Hc|ev r e msg Hr Hc|ev e msg Hr];
      rewrite Hr in Hev, Hres, Hcb; simpl in Hev, Hres, Hcb, Hin; subst ev;
      rewrite ?callbacks_app in Hin; simpl in Hin.
    + destruct (Hres r eq_refl) as [pixmap ->].
      apply list_elem_of_singleton in Hin as [= -> ->]. done.
    + destruct (Hres r eq_refl) as [pixmap ->].
      rewrite !elem_of_cons in Hin.
      destruct Hin as [[= -> ->]|[[= -> ->]|Hin]]; [done| |by inversion Hin].
      simpl in Hpix. by destruct Hpix.
    + apply list_elem_of_singleton in Hin as [= -> ->].
      simpl in Hpix. by destruct Hpix.
  - intros eps Ha Hb. by apply Qmin_close.
Qed.

(** C3.  When rendering a task raises, the worker invokes the task's
    callback with a null bitmap and zero scale, width and height, and no
    other callback; the loop is not left: the task queued behind it is
    dequeued next and, when its page renders, its callback receives the
    bitmap. *)
Theorem render_failure_is_reported (bad good : Task) q e ev r :
  (render bad).2 = Raise e →
  render good = (ev, Ok r) →
  ∃ ev_bad ev_good,
    run 2 {| queue := Some bad :: Some good :: q; running := true |}
      = (ev_bad ++ ev_good, {| queue := q; running := true |}, false) ∧
    callbacks ev_bad
      = [(cb_id (callback bad),
          {| cb_page_num := page_num bad; cb_pixmap := None; cb_scale := 0;
             cb_width := 0; cb_height := 0 |})] ∧
    (cb_id (callback good), success_args good r) ∈ callbacks ev_good.
Proof.
  intros Hbad Hgood.
  set (s0 := {| queue := Some bad :: Some good :: q; running := true |}).
  destruct (loop_body_task bad (Some good :: q) s0 eq_refl)
    as (ev_bad & Hb1 & Hb2 & _).
  destruct (loop_body_task good q (set_queue (Some good :: q) s0) eq_refl)
    as (ev_good & Hg1 & Hg2 & _).
  exists ev_bad, ev_good. split; [|split].
  - unfold run, run_iteration. simpl running. cbv iota.
    rewrite Hb1. simpl running. cbv iota. rewrite Hg1.
    by rewrite app_nil_r.
  - rewrite Hb2. destruct (render_trace bad) as [Hcb _].
    destruct (process_task_processed bad)
      as [ev' r' Hr _|ev' r' e' msg Hr _|ev' e' msg Hr];
      rewrite Hr in Hbad, Hcb; simpl in Hbad, Hcb; try discriminate.
    simpl. rewrite callbacks_app, Hcb. reflexivity.
  - rewrite Hg2.
    destruct (process_task_processed good)
      as [ev' r' Hr _|ev' r' e' msg Hr _|ev' e' msg Hr];
      rewrite Hgood in Hr; try discriminate;
      injection Hr as <- <-; simpl; rewrite callbacks_app;
      apply elem_of_app; right; simpl; apply elem_of_cons; by left.
Qed.

(** C4.  Dequeuing the sentinel leaves the loop, and once stop() has been
    called every later add_task call returns with the thread, and so its
    queue, unchanged. *)
Theorem sentinel_ends_loop_and_stop_closes_queue s q ts (fuel : nat) :
  loop_body (set_queue (None :: q) s) = LoopExit (set_queue q s) ∧
  run (S fuel) {| queue := None :: q; running := true |}
    = ([], {| queue := q; running := true |}, true) ∧
  running (state_of (stop s)) = false ∧
  add_tasks ts (state_of (stop s)) = Returned (state_of (stop s)).
Proof.
  split; [done|]. split; [done|].
  assert (running (state_of (stop s)) = false) as Hstopped.
  { unfold stop, put. simpl. by destruct (decide _). }
  split; [done|].
  induction ts as [|t ts IH]; [done|].
  simpl. by rewrite add_task_stopped.
Qed.

(** C6 (amended).  For every task the worker dequeues whose callback
    returns normally when it is handed the rendered bitmap, the callback
    is invoked exactly once: with the bitmap when rendering succeeds, with
    the null result when rendering fails. *)
Theorem callback_invoked_once t q s :
  queue s = Some t :: q →
  (∀ r, (render t).2 = Ok r →
        cb_call (callback t) (success_args t r) = Ok tt) →
  ∃ ev, loop_body s = LoopNext ev (set_queue q s) ∧
    ((∃ r, (render t).2 = Ok r ∧
           callbacks ev = [(cb_id (callback t), success_args t r)]) ∨
     (is_ok (render t).2 = false ∧
      callbacks ev = [(cb_id (callback t), failure_args t)])).
Proof.
  intros Hq Hcall.
  destruct (loop_body_task t q s Hq) as (ev & Hbody & Hcb & _).
  exists ev. split; [done|]. rewrite Hcb.
  destruct (render_trace t) as [Hnone _].
  destruct (process_task_processed t)
    as [ev' r Hr Hc|ev' r e msg Hr Hc|ev' e msg Hr];
    rewrite Hr in Hnone, Hcall |- *; simpl in Hnone, Hcall |- *;
    rewrite callbacks_app, Hnone; simpl.
  - left. by exists r.
  - rewrite (Hcall r eq_refl) in Hc. discriminate.
  - by right.
Qed.

(** Whatever the callback does, it is invoked once or twice. *)
Lemma callback_invoked_once_or_twice t :
  1 ≤ length (callbacks (process_task t).1) ≤ 2.
Proof.
  destruct (render_trace t) as [Hnone _].
  destruct (process_task_processed t)
    as [ev' r Hr Hc|ev' r e msg Hr Hc|ev' e msg Hr];
    rewrite Hr in Hnone; simpl in Hnone |- *;
    rewrite callbacks_app, Hnone; simpl; lia.
Qed.

(** With a task for another page pending on a running thread, [add_task]
    empties the queue and then waits for a lock it holds itself. *)
Lemma add_task_deadlocks t s :
  reachable s → running s = true →
  pending_not_for (page_num t) (queue s) ≠ [] →
  add_task t s = Deadlocked (set_queue [] s).
Proof.
  intros Hreach Hrun Hother.
  destruct (reachable_at_most_one_pending s Hreach Hrun) as [Hq|[old Hq]];
    rewrite Hq in Hother; [done|].
  assert (page_num old ≠ page_num t) as Hpage.
  { unfold pending_not_for in Hother. rewrite filter_cons in Hother.
    destruct (decide (item_page (Some old) ≠ Some (page_num t)))
      as [Hne|]; [|done].
    intros E. apply Hne. simpl. by rewrite E. }
  pose proof (other_pages_running_cases t s Hrun) as Hadd.
  rewrite Hq in Hadd. simpl in Hadd.
  by rewrite decide_True in Hadd.
Qed.

End Facts.

#[local] Existing Instance plain_imaging.
#[local] Existing Instance exact_quotients.
Import Samples.

Lemma add_task_supersedes_pending_witness :
  ∃ s', add_task new1 (state_of (add_task old1 init)) = Returned s' ∧
        pending_for 1 (queue s') = [Some new1].
Proof.
  apply (add_task_supersedes_pending new1 (state_of (add_task old1 init))).
  - apply (reach_add_task old1 init); [apply reach_init|reflexivity].
  - reflexivity.
  - vm_compute. discriminate.
Defined.

(** C1, as stated, fails once stop() has been called: add_task is then
    ignored, and the pending task for the page stays the old one. *)
Lemma add_task_after_stop_keeps_old_task :
  let s := state_of (stop (state_of (add_task old1 init))) in
  reachable s ∧
  pending_for 1 (queue s) ≠ [] ∧
  ¬ ∃ s', add_task new1 s = Returned s' ∧
          pending_for 1 (queue s') = [Some new1].
Proof.
  split; [|split].
  - apply (reach_stop (state_of (add_task old1 init))); [|reflexivity].
    apply (reach_add_task old1 init); [apply reach_init|reflexivity].
  - vm_compute. discriminate.
  - intros (s' & Hadd & Hpending).
    vm_compute in Hadd. injection Hadd as <-.
    vm_compute in Hpending. discriminate.
Qed.

Lemma scale_is_min_ratio_witness :
  rasterized (process_task old1).1
    = [(1%Z, {| sx := Qmin (1190 / 595) (842 / 842);
                sy := Qmin (1190 / 595) (842 / 842) |})] ∧
  (∃ rest,
     callbacks (process_task old1).1
       = (1, {| cb_page_num := 1;
                cb_pixmap := Some {| sx := Qmin (1190 / 595) (842 / 842);
                                     sy := Qmin (1190 / 595) (842 / 842) |};
                cb_scale := Qmin (1190 / 595) (842 / 842);
                cb_width := 595; cb_height := 842 |}) :: rest) ∧
  (Qabs (Qmin (1190 / 595) (842 / 842) - Qmin (1190 / 595) (842 / 842))
   <= Qmax ((1 # 9007199254740992) * Qabs (1190 / 595))
           ((1 # 9007199254740992) * Qabs (842 / 842)))%Q.
Proof.
  destruct (scale_is_min_ratio old1 595 842) as (Hr & Hc & _ & Htol);
    [reflexivity..|].
  split; [exact Hr|]. split.
  - eapply Hc; reflexivity.
  - apply (Htol (1 # 9007199254740992)%Q);
      apply Qle_bool_iff; reflexivity.
Defined.

Lemma render_failure_is_reported_witness :
  ∃ ev_bad ev_good,
    run 2 {| queue := [Some bad3; Some old1]; running := true |}
      = (ev_bad ++ ev_good, {| queue := []; running := true |}, false) ∧
    callbacks ev_bad
      = [(4, {| cb_page_num := 3; cb_pixmap := None; cb_scale := 0;
                cb_width := 0; cb_height := 0 |})] ∧
    (1, success_args old1 ({| sx := 842 # 842; sy := 842 # 842 |},
                            842 # 842, 595, 842)%Q)
      ∈ callbacks ev_good.
Proof.
  apply (render_failure_is_reported bad3 old1 [] "cannot render page"
           [EvGetPixmap 1 {| sx := 842 # 842; sy := 842 # 842 |}]);
    reflexivity.
Defined.

Lemma callback_invoked_once_witness :
  ∃ ev, loop_body {| queue := [Some bad3]; running := true |}
          = LoopNext ev {| queue := []; running := true |} ∧
    ((∃ r, (render bad3).2 = Ok r ∧
           callbacks ev = [(4, success_args bad3 r)]) ∨
     (is_ok (render bad3).2 = false ∧
      callbacks ev = [(4, failure_args bad3)])).
Proof.
  apply (callback_invoked_once bad3 [] {| queue := [Some bad3]; running := true |}).
  - reflexivity.
  - intros r Hr. vm_compute in Hr. discriminate.
Defined.

(** C6, as stated, fails for a callback that raises when it receives the
    bitmap: the handler of the same [try] calls it a second time. *)
Lemma raising_callback_invoked_twice :
  ∃ ev, loop_body {| queue := [Some fussy4]; running := true |}
          = LoopNext ev {| queue := []; running := true |} ∧
        callbacks ev
          = [(5, success_args fussy4 ({| sx := 842 # 842; sy := 842 # 842 |},
                                       842 # 842, 595, 842)%Q);
             (5, failure_args fussy4)] ∧
        length (callbacks ev) ≠ 1.
Proof.
  eexists. split; [reflexivity|]. split; [reflexivity|]. simpl. lia.
Qed.

(** C5 at a failing input: with the task for page 1 pending, submitting a
    task for page 2 empties the queue and never returns; the task for
    page 1 is lost and the new task is not queued. *)
Theorem add_task_other_page_never_returns :
  let s := state_of (add_task old1 init) in
  reachable s ∧
  queue s = [Some old1] ∧
  add_task other2 s = Deadlocked {| queue := []; running := true |} ∧
  pending_not_for 2 (queue (state_of (add_task other2 s))) ≠ [Some old1].
Proof.
  split; [|split; [|split]].
  - apply (reach_add_task old1 init); [apply reach_init|reflexivity].
  - reflexivity.
  - reflexivity.
  - vm_compute. discriminate.
Qed.

End RenderFacts.


(** * Properties of the file dialog *)

Module DialogFacts.
Import Dialog.

(** ** The sort *)

Lemma StronglySorted_mono {B} (R1 R2 : relation B) (l : list B) :
  (∀ x y, R1 x y → R2 x y) → StronglySorted R1 l → StronglySorted R2 l.
Proof.
  intros HR. induction 1 as [|x l Hl IH Hx]; constructor; [done|].
  eapply Forall_impl; [exact Hx|]. by auto.
Qed.

Section Sort.
Context {A : Type}.
Implicit Types (x : Q * A) (l : list (Q * A)).

Lemma insert_desc_perm x l : insert_desc x l ≡ₚ x :: l.
Proof.
  induction l as [|y l IH]; simpl; [done|].
  destruct (Qle_bool y.1 x.1); [done|].
  rewrite IH. apply Permutation_swap.
Qed.

Lemma sort_desc_perm l : sort_desc l ≡ₚ l.
Proof.
  induction l as [|x l IH]; [done|].
  unfold sort_desc in *. simpl. by rewrite insert_desc_perm, IH.
Qed.

Lemma insert_desc_sorted x l :
  StronglySorted key_ge l → StronglySorted key_ge (insert_desc x l).
Proof.
  induction 1 as [|y l Hl IH Hy]; simpl.
  - repeat constructor.
  - destruct (Qle_bool y.1 x.1) eqn:Hle.
    + apply Qle_bool_iff in Hle. constructor.
      * by constructor.
      * constructor; [done|].
        eapply Forall_impl; [exact Hy|].
        intros z Hz. unfold key_ge in *. by eapply Qle_trans.
    + constructor; [done|].
      rewrite insert_desc_perm. constructor; [|done].
      unfold key_ge. apply Qlt_le_weak, Qnot_le_lt.
      intros Hle'. apply Qle_bool_iff in Hle'. congruence.
Qed.

Lemma sort_desc_sorted l : StronglySorted key_ge (sort_desc l).
Proof.
  induction l as [|x l IH]; [constructor|].
  by apply insert_desc_sorted.
Qed.

Lemma StronglySorted_with (R : relation (Q * A)) (P : Q * A → Prop) l :
  StronglySorted R l → Forall P l →
  StronglySorted (λ a b, P a ∧ P b ∧ R a b) l.
Proof.
  induction 1 as [|x l Hl IH Hx]; intros HP; [constructor|].
  apply Forall_cons in HP as [HPx HPl]. constructor; [by apply IH|].
  rewrite Forall_forall in Hx, HPl |- *. intros y Hy. by auto.
Qed.

Lemma with_keys_ok (key : A → result Q) (items : list A) :
  (∀ a, a ∈ items → is_ok (key a) = true) →
  ∃ kl, with_keys key items = Ok kl ∧ kl.*2 = items ∧
        Forall (λ ka, key ka.2 = Ok ka.1) kl.
Proof.
  induction items as [|a items IH]; intros Hok; simpl.
  - by exists [].
  - pose proof (Hok a ltac:(by left)) as Ha.
    destruct (key a) as [k|] eqn:Hk; [|done].
    destruct IH as (kl & -> & Hkl & Hall).
    { intros b Hb. apply Hok. by right. }
    exists ((k, a) :: kl). split; [done|]. split; [by rewrite <- Hkl|].
    by constructor.
Qed.

Lemma with_keys_raise (key : A → result Q) (items : list A) a :
  a ∈ items → is_ok (key a) = false → is_ok (with_keys key items) = false.
Proof.
  induction items as [|b items IH]; intros Hin Ha; [by inversion Hin|].
  simpl. destruct (key b) as [k|] eqn:Hk; [|done].
  apply elem_of_cons in Hin as [->|Hin]; [by rewrite Hk in Ha|].
  specialize (IH Hin Ha). by destruct (with_keys key items).
Qed.

(** The sort, when every key can be computed: a rearrangement of the
    list in which the keys decrease. *)
Lemma py_sort_reverse_ok (key : A → result Q) (items : list A) :
  (∀ a, a ∈ items → is_ok (key a) = true) →
  ∃ sorted, py_sort_reverse key items = Ok sorted ∧ sorted ≡ₚ items ∧
    StronglySorted
      (λ a b, ∃ ka kb, key a = Ok ka ∧ key b = Ok kb ∧ (kb <= ka)%Q) sorted.
Proof.
  intros Hok. destruct (with_keys_ok key items Hok) as (kl & Hkl & Hitems & Hall).
  unfold py_sort_reverse. rewrite Hkl. eexists. split; [done|]. split.
  - by rewrite sort_desc_perm, Hitems.
  - eapply (StronglySorted_fmap snd
             (λ a b, key a.2 = Ok a.1 ∧ key b.2 = Ok b.1 ∧ key_ge a b)).
    + intros [ka a] [kb b] (Ha & Hb & Hge). simpl in *. by exists ka, kb.
    + apply StronglySorted_with; [apply sort_desc_sorted|].
      by rewrite sort_desc_perm.
Qed.

End Sort.

Section Facts.
Context `{Env}.
Variable current_dir : string.

Implicit Types (d : Deletion) (item : Item) (fs : FS) (ev : list event).

(** ** [scan_pdf_files] *)

Lemma elem_of_glob_pdf fs p :
  has_magic current_dir = false →
  p ∈ glob_pdf current_dir fs ↔
  ∃ name, name ∈ listdir fs current_dir ∧ ishidden name = false ∧
          ends_with ".pdf" (normcase name) = true ∧
          p = path_join current_dir name.
Proof.
  intros Hplain. unfold glob_pdf. rewrite Hplain. simpl. rewrite app_nil_r.
  unfold glob_in, fnmatch_pdf. rewrite list_elem_of_fmap. split.
  - intros (name & -> & Hin). apply list_elem_of_In, filter_In in Hin as [Hin Hm].
    apply andb_true_iff in Hm as [Hh Hm]. apply negb_true_iff in Hh.
    exists name. by rewrite list_elem_of_In.
  - intros (name & Hin & Hh & Hm & ->). exists name. split; [done|].
    apply list_elem_of_In, filter_In. split; [by apply list_elem_of_In|].
    by rewrite Hh, Hm.
Qed.

(** C9 (amended).  When the path of the directory has none of the
    characters *, ? and [, and the modification time of every matching
    entry can be read, the scan returns exactly the entries of the
    directory whose name does not begin with a dot and, once
    case-normalised, ends in ".pdf", each joined to the directory, ordered
    by modification time, newest first. *)
Theorem scan_lists_matching_newest_first fs :
  has_magic current_dir = false →
  (∀ p, p ∈ glob_pdf current_dir fs → is_ok (getmtime fs p) = true) →
  let files := (scan_pdf_files current_dir fs).2 in
  files ≡ₚ glob_pdf current_dir fs ∧
  (∀ p, p ∈ files ↔
        ∃ name, name ∈ listdir fs current_dir ∧ ishidden name = false ∧
                ends_with ".pdf" (normcase name) = true ∧
                p = path_join current_dir name) ∧
  StronglySorted (newer_or_same fs) files.
Proof.
  intros Hplain Hok files.
  destruct (py_sort_reverse_ok (getmtime fs) _ Hok) as (sorted & Hs & Hperm & Hsorted).
  assert (files = sorted) as ->.
  { unfold files, scan_pdf_files. by rewrite Hs. }
  split; [done|]. split.
  - intros p. rewrite Hperm. by apply elem_of_glob_pdf.
  - eapply StronglySorted_mono; [|exact Hsorted].
    intros p q (a & b & Hp & Hq & Hle). unfold newer_or_same.
    by rewrite Hp, Hq.
Qed.

(** ** [open_selected_file] *)

(** C10.  With a selection, the file of its first item is the only one
    handed to load_pdf_file, whatever else is selected; with no selection
    the action shows the warning and loads nothing. *)
Theorem open_selected_opens_first item (rest : list Item) :
  loads (open_selected_file (item :: rest)).1 = [item_path item] ∧
  open_selected_file (item :: rest) = open_selected_file [item] ∧
  open_selected_file [] = ([EvWarning "提示" "请先选择要打开的文件"], Ok tt) ∧
  loads (open_selected_file []).1 = [].
Proof.
  repeat split. unfold open_selected_file.
  by destruct (load_pdf_file (item_path item)).
Qed.

(** ** [delete_selected_files] *)

(** What one pass through the loop body does; [ok] tells whether
    [os.remove] returned. *)
Lemma delete_item_effect d item :
  ∃ (ok : bool) (more : list string),
    removals (events (delete_item d item))
      = removals (events d) ++ [(item_path item, ok)] ∧
    removed (events (delete_item d item))
      = removed (events d) ++ (if ok then [item_path item] else []) ∧
    message_boxes (events (delete_item d item)) = message_boxes (events d) ∧
    reading_positions (delete_item d item)
      = (if ok then delete (abspath (item_path item)) (reading_positions d)
         else reading_positions d) ∧
    failed_files (delete_item d item) = failed_files d ++ more ∧
    deleted_count (delete_item d item) + length more = S (deleted_count d) ∧
    (ok = false → ∃ e, more = [item_name item +:+ ": " +:+ e]).
Proof.
  unfold delete_item.
  destruct (remove (fs d) (item_path item)) as [fs1 [[]|e]].
  - destruct (reading_positions d !! abspath (item_path item)) eqn:Hkey.
    + destruct (save_reading_positions _ fs1) as [fs2 [[]|e]].
      * exists true, []. unfold removals, removed, message_boxes; simpl.
        rewrite !omap_app, app_nil_r. simpl.
        repeat split; try done; rewrite ?app_nil_r; try done; lia.
      * exists true, [item_name item +:+ ": " +:+ e].
        unfold removals, removed, message_boxes; simpl.
        rewrite !omap_app. simpl.
        repeat split; try done; rewrite ?app_nil_r; try done; lia.
    + exists true, []. unfold removals, removed, message_boxes; simpl.
      rewrite !omap_app, app_nil_r. simpl.
      repeat split; try done; rewrite ?app_nil_r, ?delete_id; try done; lia.
  - exists false, [item_name item +:+ ": " +:+ e].
    unfold removals, removed, message_boxes; simpl.
    rewrite !omap_app. simpl.
    repeat split; try done; rewrite ?app_nil_r; try done; try lia.
    intros _. by exists e.
Qed.

Lemma delete_loop_cons item (items : list Item) d :
  delete_loop (item :: items) d = delete_loop items (delete_item d item).
Proof. reflexivity. Qed.

(** The list of failures only grows. *)
Lemma delete_loop_failed_files (items : list Item) d :
  ∃ more, failed_files (delete_loop items d) = failed_files d ++ more ∧
          deleted_count (delete_loop items d) + length more
            = deleted_count d + length items.
Proof.
  revert d. induction items as [|item items IH]; intros d.
  - exists []. simpl. by rewrite app_nil_r, !Nat.add_0_r.
  - rewrite delete_loop_cons.
    destruct (delete_item_effect d item)
      as (ok & more1 & _ & _ & _ & _ & Hf1 & Hc1 & _).
    destruct (IH (delete_item d item)) as (more & Hf & Hc).
    exists (more1 ++ more). rewrite Hf, Hf1, <- app_assoc. split; [done|].
    rewrite length_app. simpl. lia.
Qed.

(** The loop calls [os.remove] on every item, in order, and every call
    that raised left its line in [failed_files]. *)
Lemma delete_loop_removals (items : list Item) d :
  ∃ rs, removals (events (delete_loop items d)) = removals (events d) ++ rs ∧
    Forall2 (λ item r,
        r.1 = item_path item ∧
        (r.2 = false →
         ∃ e, item_name item +:+ ": " +:+ e ∈ failed_files (delete_loop items d)))
      items rs.
Proof.
  revert d. induction items as [|item items IH]; intros d.
  - exists []. by rewrite app_nil_r.
  - rewrite delete_loop_cons.
    destruct (delete_item_effect d item)
      as (ok & more1 & Hr1 & _ & _ & _ & Hf1 & _ & Hline).
    destruct (IH (delete_item d item)) as (rs & Hr & Hall).
    destruct (delete_loop_failed_files items (delete_item d item))
      as (more & Hf & _).
    exists ((item_path item, ok) :: rs). split.
    + by rewrite Hr, Hr1, <- app_assoc.
    + constructor; [|done]. split; [done|]. simpl. intros ->.
      destruct (Hline eq_refl) as [e ->]. exists e.
      rewrite Hf, Hf1. apply elem_of_app. left. apply elem_of_app. right.
      by apply list_elem_of_singleton.
Qed.

Lemma delete_loop_message_boxes (items : list Item) d :
  message_boxes (events (delete_loop items d)) = message_boxes (events d).
Proof.
  revert d. induction items as [|item items IH]; intros d; [done|].
  rewrite delete_loop_cons, IH.
  by destruct (delete_item_effect d item) as (? & ? & _ & _ & -> & _).
Qed.

Lemma lookup_foldl_delete (ps : list string) (m : gmap string Z) (k : string) :
  foldl (λ m p, delete (abspath p) m) m ps !! k
    = if decide (k ∈ abspath <$> ps) then None else m !! k.
Proof.
  revert m. induction ps as [|p ps IH]; intros m.
  - destruct (decide (k ∈ abspath <$> [])) as [Hin|]; [|done].
    by apply elem_of_nil in Hin.
  - change (foldl (λ m p, delete (abspath p) m) m (p :: ps))
      with (foldl (λ m p, delete (abspath p) m) (delete (abspath p) m) ps).
    rewrite IH, fmap_cons.
    destruct (decide (k ∈ abspath <$> ps)) as [Hin|Hnin].
    + rewrite decide_True; [done|]. by right.
    + destruct (decide (k = abspath p)) as [->|Hne].
      * rewrite lookup_delete_eq. rewrite decide_True; [done|]. by left.
      * rewrite lookup_delete_ne by done.
        rewrite decide_False; [done|].
        intros [?|?]%elem_of_cons; done.
Qed.

(** The reading positions after the loop: the entries of the removed files
    are deleted, one after the other. *)
Lemma delete_loop_positions (items : list Item) d :
  ∃ ps, removed (events (delete_loop items d)) = removed (events d) ++ ps ∧
        reading_positions (delete_loop items d)
          = foldl (λ m p, delete (abspath p) m) (reading_positions d) ps.
Proof.
  revert d. induction items as [|item items IH]; intros d.
  - exists []. by rewrite app_nil_r.
  - rewrite delete_loop_cons.
    destruct (delete_item_effect d item)
      as (ok & more1 & _ & Hr1 & _ & Hp1 & _).
    destruct (IH (delete_item d item)) as (ps & Hr & Hp).
    exists ((if ok then [item_path item] else []) ++ ps).
    rewrite Hr, Hr1, <- app_assoc, Hp, Hp1. split; [done|].
    by destruct ok.
Qed.

Lemma removed_finish d : removed (events (finish d)) = removed (events d).
Proof.
  unfold finish, removed, report. simpl. rewrite omap_app.
  destruct (failed_files d); simpl; by rewrite app_nil_r.
Qed.

Lemma removals_finish d : removals (events (finish d)) = removals (events d).
Proof.
  unfold finish, removals, report. simpl. rewrite omap_app.
  destruct (failed_files d); simpl; by rewrite app_nil_r.
Qed.

Lemma message_boxes_finish d :
  message_boxes (events (finish d)) = message_boxes (events d) ++ [report d].
Proof.
  unfold finish, message_boxes, report. simpl. rewrite omap_app.
  by destruct (failed_files d).
Qed.

(** C7.  After delete_selected_files, the reading positions hold no entry
    for the absolute path of any file whose os.remove succeeded, and the
    entry of every other path is what it was before. *)
Theorem delete_drops_reading_positions (selected_items : list Item)
    (reply : bool) fs (positions : gmap string Z) :
  let d := delete_selected_files selected_items reply fs positions in
  (∀ p, p ∈ removed (events d) → reading_positions d !! abspath p = None) ∧
  (∀ k, k ∉ abspath <$> removed (events d) →
        reading_positions d !! k = positions !! k).
Proof.
  intros d.
  assert (∃ ps, removed (events d) = ps ∧
                reading_positions d
                  = foldl (λ m p, delete (abspath p) m) positions ps)
    as (ps & Hr & Hp).
  { unfold d, delete_selected_files.
    destruct selected_items as [|item items]; [by exists []|].
    destruct reply; [|by exists []].
    match goal with |- context [delete_loop ?l ?d0] =>
      destruct (delete_loop_positions l d0) as (ps & Hr & Hp) end.
    exists ps. rewrite removed_finish, Hr. split; [done|]. exact Hp. }
  rewrite Hr, Hp. split.
  - intros p Hin. rewrite lookup_foldl_delete, decide_True; [done|].
    by apply list_elem_of_fmap_2.
  - intros k Hk. by rewrite lookup_foldl_delete, decide_False.
Qed.


End Facts.

Import Samples.
#[local] Existing Instance posix.

Lemma scan_lists_matching_newest_first_witness :
  (scan_pdf_files dir shelf).2 ≡ₚ glob_pdf dir shelf ∧
  StronglySorted (newer_or_same shelf) (scan_pdf_files dir shelf).2.
Proof.
  assert (∀ p, p ∈ glob_pdf dir shelf → is_ok (getmtime shelf p) = true) as Hok.
  { intros p Hp. vm_compute in Hp.
    repeat (apply elem_of_cons in Hp as [->|Hp]; [reflexivity|]).
    by apply elem_of_nil in Hp. }
  destruct (scan_lists_matching_newest_first dir shelf eq_refl Hok)
    as (Hperm & _ & Hsorted).
  by split.
Defined.

(** C9, as stated, fails on a hidden file: its name ends in ".pdf", yet
    the pattern "*.pdf" of glob does not match a name that starts with a
    dot. *)
Lemma hidden_pdf_is_not_listed :
  let shelf : @FS posix := [file ".hidden.pdf" 5 false] in
  ".hidden.pdf" ∈ listdir shelf dir ∧
  ends_with ".pdf" ".hidden.pdf" = true ∧
  path_join dir ".hidden.pdf" ∉ (scan_pdf_files dir shelf).2.
Proof.
  split; [|split].
  - vm_compute. by left.
  - reflexivity.
  - intros Hin. vm_compute in Hin. by apply elem_of_nil in Hin.
Qed.

Lemma delete_drops_reading_positions_witness :
  reading_positions (delete_selected_files abc true shelf positions)
    !! abspath (path_of "a.pdf") = None ∧
  reading_positions (delete_selected_files abc true shelf positions)
    !! path_of "b.pdf" = positions !! path_of "b.pdf".
Proof.
  destruct (delete_drops_reading_positions abc true shelf positions)
    as [Hgone Hkept].
  split.
  - apply Hgone. vm_compute. by left.
  - apply Hkept. intros Hin. vm_compute in Hin.
    repeat (apply elem_of_cons in Hin as [Hin|Hin]; [discriminate|]).
    by apply elem_of_nil in Hin.
Defined.


End DialogFacts.

(** * More about the render worker *)

Module RenderMoreFacts.
Import Render Observed.

Section Facts.
Context `{Imaging} `{FloatDiv}.

Implicit Types (t : Task) (s : PDFRenderThread) (q : list (option Task)).

(** Only [render] talks to the rasterizer. *)
Lemma rasterized_process_task t :
  rasterized (process_task t).1 = rasterized (render t).1.
Proof.
  destruct (RenderFacts.process_task_processed t)
    as [ev r Hr _|ev r e msg Hr _|ev e msg Hr];
    rewrite Hr; simpl; rewrite RenderFacts.rasterized_app; simpl;
    by rewrite app_nil_r.
Qed.

Lemma render_zero_sized t (w h : Q) :
  rect (page t) = Ok (w, h) → ((w == 0)%Q ∨ (h == 0)%Q) →
  (render t).1 = [] ∧ is_ok (render t).2 = false.
Proof.
  intros Hrect Hzero. unfold render, bind, lift, emit, ret.
  rewrite Hrect. destruct (target_size t) as [tw th]. simpl.
  destruct (py_div tw w) as [wr|] eqn:Hw; simpl; [|done].
  destruct (py_div th h) as [hr|] eqn:Hh; simpl; [|done].
  destruct Hzero as [Hz|Hz].
  - pose proof (RenderFacts.py_div_zero tw w Hz) as E. by rewrite Hw in E.
  - pose proof (RenderFacts.py_div_zero th h Hz) as E. by rewrite Hh in E.
Qed.

(** X1.  While the thread runs, its queue never holds more than one item,
    and never the sentinel: the bound of ten is out of reach. *)
Theorem running_thread_holds_at_most_one_task s :
  reachable s → running s = true →
  length (queue s) ≤ 1 ∧ (None ∉ queue s) ∧ length (queue s) < maxsize.
Proof.
  intros Hreach Hrun.
  destruct (RenderFacts.reachable_at_most_one_pending s Hreach Hrun)
    as [->|[t ->]]; simpl; unfold maxsize.
  - split; [lia|]. split; [|lia]. by apply not_elem_of_nil.
  - split; [lia|]. split; [|lia].
    intros [?|?%elem_of_nil]%elem_of_cons; done.
Qed.

(** X2.  On a running thread, add_task returns with the new task as the
    only item of the queue when no task for another page is pending, and
    otherwise empties the queue and never returns. *)
Theorem add_task_returns_or_deadlocks t s :
  reachable s → running s = true →
  (pending_not_for (page_num t) (queue s) = [] →
   add_task t s = Returned (set_queue [Some t] s)) ∧
  (pending_not_for (page_num t) (queue s) ≠ [] →
   add_task t s = Deadlocked (set_queue [] s)).
Proof.
  intros Hreach Hrun.
  pose proof (RenderFacts.other_pages_running_cases t s Hrun) as Hadd.
  destruct (RenderFacts.reachable_at_most_one_pending s Hreach Hrun)
    as [Hq|[old Hq]]; rewrite Hq in Hadd |- *; simpl in Hadd.
  - split; [done|]. by intros [].
  - unfold pending_not_for. rewrite filter_cons, filter_nil.
    destruct (decide (page_num old ≠ page_num t)) as [Hne|Heq].
    + rewrite decide_True; [by split|].
      simpl. intros [= E]. by apply Hne.
    + rewrite decide_False; [split; [done|by intros []]|].
      intros Hne. apply Hne. simpl. f_equal.
      by destruct (decide (page_num old = page_num t)).
Qed.

(** X3.  stop() on a running thread does not block: it clears the flag
    and appends the sentinel.  A worker that then evaluates the condition of
    its loop leaves without dequeuing: what is pending is not rendered. *)
Theorem stop_returns_and_worker_leaves s (fuel : nat) :
  reachable s → running s = true →
  stop s = Returned {| queue := queue s ++ [None]; running := false |} ∧
  run (S fuel) {| queue := queue s ++ [None]; running := false |}
    = ([], {| queue := queue s ++ [None]; running := false |}, true).
Proof.
  intros Hreach Hrun. split; [|done].
  destruct (running_thread_holds_at_most_one_task s Hreach Hrun)
    as (_ & _ & Hlen).
  unfold stop, put. simpl. by rewrite decide_False by lia.
Qed.

(** X4.  A page whose width or height is zero is not rasterized: the
    division raises, and the callback receives the null result. *)
Theorem zero_sized_page_is_reported t (w h : Q) :
  rect (page t) = Ok (w, h) → ((w == 0)%Q ∨ (h == 0)%Q) →
  rasterized (process_task t).1 = [] ∧
  callbacks (process_task t).1 = [(cb_id (callback t), failure_args t)].
Proof.
  intros Hrect Hzero.
  destruct (render_zero_sized t w h Hrect Hzero) as [Hev Hres].
  split; [by rewrite rasterized_process_task, Hev|].
  destruct (RenderFacts.process_task_processed t)
    as [ev r Hr _|ev r e msg Hr _|ev e msg Hr];
    rewrite Hr in Hev, Hres; simpl in Hev, Hres; try discriminate.
  subst ev. reflexivity.
Qed.

(** A rounded quotient times its divisor is within the rounding error of
    the dividend. *)
Lemma quotient_bounds (a b eps : Q) :
  (0 <= a)%Q → (0 < b)%Q → accurate eps a b →
  (float_div a b * b <= (1 + eps) * a)%Q ∧
  ((1 - eps) * a <= float_div a b * b)%Q.
Proof.
  unfold accurate. intros Ha Hb Hacc.
  assert (0 <= a / b)%Q as Hq by (apply Qle_shift_div_l; [done|lra]).
  rewrite (Qabs_pos _ Hq) in Hacc.
  apply Qabs_Qle_condition in Hacc as [Hlo Hhi].
  split.
  - assert (float_div a b * b <= ((1 + eps) * (a / b)) * b)%Q
      by (apply Qmult_le_compat_r; lra).
    assert ((1 + eps) * (a / b) * b == (1 + eps) * a)%Q by (field; lra).
    lra.
  - assert (((1 - eps) * (a / b)) * b <= float_div a b * b)%Q
      by (apply Qmult_le_compat_r; lra).
    assert ((1 - eps) * (a / b) * b == (1 - eps) * a)%Q by (field; lra).
    lra.
Qed.

(** X5.  With a page of positive size, a target without negative side and
    divisions whose rounding error is at most eps times the quotient, the
    scale handed to the rasterizer makes the page fit the target up to
    that error: neither scaled side exceeds (1 + eps) times its target
    side, and one of them reaches (1 - eps) times it. *)
Theorem rendered_page_fits_target t (w h eps : Q) :
  rect (page t) = Ok (w, h) → (0 < w)%Q → (0 < h)%Q →
  (0 <= (target_size t).1)%Q → (0 <= (target_size t).2)%Q →
  accurate eps (target_size t).1 w → accurate eps (target_size t).2 h →
  ∃ scale,
    rasterized (process_task t).1
      = [(page_num t, {| sx := scale; sy := scale |})] ∧
    (scale * w <= (1 + eps) * (target_size t).1)%Q ∧
    (scale * h <= (1 + eps) * (target_size t).2)%Q ∧
    (((1 - eps) * (target_size t).1 <= scale * w)%Q ∨
     ((1 - eps) * (target_size t).2 <= scale * h)%Q).
Proof.
  intros Hrect Hw Hh Htw Hth Haw Hah.
  assert (¬ (w == 0)%Q) as Hw0
    by (intros E; rewrite E in Hw; by apply Qlt_irrefl in Hw).
  assert (¬ (h == 0)%Q) as Hh0
    by (intros E; rewrite E in Hh; by apply Qlt_irrefl in Hh).
  destruct (RenderFacts.render_sized t w h Hrect Hw0 Hh0) as [Hev _].
  destruct (target_size t) as [tw th]. simpl in *.
  destruct (quotient_bounds tw w eps Htw Hw Haw) as [Hw1 Hw2].
  destruct (quotient_bounds th h eps Hth Hh Hah) as [Hh1 Hh2].
  exists (py_min (float_div tw w) (float_div th h)).
  split; [by rewrite rasterized_process_task, Hev|].
  unfold py_min. destruct (Qle_bool (float_div tw w) (float_div th h)) eqn:Hle.
  - apply Qle_bool_iff in Hle. split; [done|]. split; [|by left].
    eapply Qle_trans; [|exact Hh1].
    apply Qmult_le_compat_r; [done|by apply Qlt_le_weak].
  - assert (float_div th h <= float_div tw w)%Q as Hlt.
    { apply Qlt_le_weak, Qnot_le_lt. intros Hle'.
      apply Qle_bool_iff in Hle'. congruence. }
    split; [|split; [done|by right]].
    eapply Qle_trans; [|exact Hw1].
    apply Qmult_le_compat_r; [done|by apply Qlt_le_weak].
Qed.

Lemma loop_body_task_trace t q s :
  queue s = Some t :: q → loop_body s = LoopNext (task_trace t) (set_queue q s).
Proof.
  intros Hq. unfold loop_body, task_trace. rewrite Hq.
  by destruct (try_except _ _).
Qed.

Lemma callbacks_task_trace t :
  callbacks (task_trace t) = callbacks (process_task t).1.
Proof.
  unfold task_trace, try_except, print, emit.
  destruct (process_task t) as [ev [[]|e]]; simpl; [done|].
  rewrite RenderFacts.callbacks_app. simpl. by rewrite app_nil_r.
Qed.

(** X6.  For a dequeued task whose page and callback each return or
    raise an exception of class Exception, the pass through the loop ends
    with the task taken off the queue and the loop not left, also when the
    callback raises on both of its invocations; the callback has then been
    invoked with the null result alone (rendering failed), with the bitmap
    alone, or with the bitmap and then the null result. *)
Theorem worker_survives_any_task t q s :
  queue s = Some t :: q →
  ∃ ev, loop_body s = LoopNext ev (set_queue q s) ∧
    ((is_ok (render t).2 = false ∧
      callbacks ev = [(cb_id (callback t), failure_args t)]) ∨
     ∃ r, (render t).2 = Ok r ∧
       (callbacks ev = [(cb_id (callback t), success_args t r)] ∨
        callbacks ev = [(cb_id (callback t), success_args t r);
                        (cb_id (callback t), failure_args t)])).
Proof.
  intros Hq. exists (task_trace t).
  split; [by apply loop_body_task_trace|].
  rewrite callbacks_task_trace.
  destruct (RenderFacts.render_trace t) as [Hnone _].
  destruct (RenderFacts.process_task_processed t)
    as [ev r Hr Hc|ev r e msg Hr Hc|ev e msg Hr];
    rewrite Hr in Hnone |- *; simpl in Hnone |- *;
    rewrite RenderFacts.callbacks_app, Hnone; simpl.
  - right. exists r. by auto.
  - right. exists r. by auto.
  - by left.
Qed.




End Facts.

Import Samples MoreSamples.
#[local] Existing Instance plain_imaging.
#[local] Existing Instance exact_quotients.

Lemma running_thread_holds_at_most_one_task_witness :
  length (queue (state_of (add_task old1 init))) ≤ 1 ∧
  (None ∉ queue (state_of (add_task old1 init))) ∧
  length (queue (state_of (add_task old1 init))) < maxsize.
Proof.
  apply (running_thread_holds_at_most_one_task (state_of (add_task old1 init))).
  - apply (reach_add_task old1 init); [apply reach_init|reflexivity].
  - reflexivity.
Defined.

Lemma add_task_returns_or_deadlocks_witness :
  add_task other2 (state_of (add_task old1 init))
    = Deadlocked (set_queue [] (state_of (add_task old1 init))).
Proof.
  apply (add_task_returns_or_deadlocks other2 (state_of (add_task old1 init))).
  - apply (reach_add_task old1 init); [apply reach_init|reflexivity].
  - reflexivity.
  - vm_compute. discriminate.
Defined.

Lemma stop_returns_and_worker_leaves_witness :
  stop (state_of (add_task old1 init))
    = Returned {| queue := [Some old1; None]; running := false |}.
Proof.
  apply (stop_returns_and_worker_leaves (state_of (add_task old1 init)) 0).
  - apply (reach_add_task old1 init); [apply reach_init|reflexivity].
  - reflexivity.
Defined.

Lemma zero_sized_page_is_reported_witness :
  rasterized (process_task flat5).1 = [] ∧
  callbacks (process_task flat5).1 = [(6, failure_args flat5)].
Proof.
  apply (zero_sized_page_is_reported flat5 595 0); [reflexivity|].
  right. reflexivity.
Defined.

Lemma rendered_page_fits_target_witness :
  ∃ scale,
    rasterized (process_task old1).1 = [(1%Z, {| sx := scale; sy := scale |})] ∧
    (scale * 595 <= (1 + (1 # 9007199254740992)) * 1190)%Q ∧
    (scale * 842 <= (1 + (1 # 9007199254740992)) * 842)%Q ∧
    (((1 - (1 # 9007199254740992)) * 1190 <= scale * 595)%Q ∨
     ((1 - (1 # 9007199254740992)) * 842 <= scale * 842)%Q).
Proof.
  apply (rendered_page_fits_target old1 595 842 (1 # 9007199254740992));
    try reflexivity; try (apply Qle_bool_iff; reflexivity).
Defined.

Lemma worker_survives_any_task_witness :
  ∃ ev, loop_body {| queue := [Some fussy4; Some old1]; running := true |}
          = LoopNext ev {| queue := [Some old1]; running := true |} ∧
    ((is_ok (render fussy4).2 = false ∧
      callbacks ev = [(5, failure_args fussy4)]) ∨
     ∃ r, (render fussy4).2 = Ok r ∧
       (callbacks ev = [(5, success_args fussy4 r)] ∨
        callbacks ev = [(5, success_args fussy4 r); (5, failure_args fussy4)])).
Proof.
  apply (worker_survives_any_task fussy4 [Some old1]
           {| queue := [Some fussy4; Some old1]; running := true |}).
  reflexivity.
Defined.

End RenderMoreFacts.

(** * More about the file dialog *)

Module DialogMoreFacts.
Import Dialog Observed.

(** ** The sort keeps ties in place *)

Section Stable.
Context {A : Type}.
Implicit Types (x : Q * A) (l : list (Q * A)).

Lemma with_key_insert_desc (k : Q) x l :
  with_key k (insert_desc x l) = with_key k (x :: l).
Proof.
  induction l as [|y l IH]; [done|].
  simpl insert_desc. destruct (Qle_bool y.1 x.1) eqn:Hle; [done|].
  unfold with_key in *. simpl in *. rewrite IH.
  destruct (Qeq_bool x.1 k) eqn:Hx, (Qeq_bool y.1 k) eqn:Hy; try done.
  apply Qeq_bool_iff in Hx, Hy.
  assert (y.1 <= x.1)%Q as Hyx by (rewrite Hx, Hy; apply Qle_refl).
  apply Qle_bool_iff in Hyx. congruence.
Qed.

Lemma with_key_sort_desc (k : Q) l : with_key k (sort_desc l) = with_key k l.
Proof.
  induction l as [|x l IH]; [done|].
  unfold sort_desc in *. simpl foldr. rewrite with_key_insert_desc.
  unfold with_key in *. simpl. by rewrite IH.
Qed.

Lemma with_keys_snd (key : A → result Q) (items : list A) kl :
  with_keys key items = Ok kl →
  kl.*2 = items ∧ Forall (λ ka, key ka.2 = Ok ka.1) kl.
Proof.
  revert kl. induction items as [|a items IH]; intros kl; simpl.
  - by intros [= <-].
  - destruct (key a) as [k|] eqn:Hk; [|done].
    destruct (with_keys key items) as [kl'|]; [|done].
    intros [= <-]. destruct (IH kl' eq_refl) as [Hs Hall].
    split; [by rewrite <- Hs|]. by constructor.
Qed.

Lemma py_sort_reverse_perm (key : A → result Q) (items sorted : list A) :
  py_sort_reverse key items = Ok sorted → sorted ≡ₚ items.
Proof.
  unfold py_sort_reverse.
  destruct (with_keys key items) as [kl|] eqn:Hkl; [|done].
  intros [= <-]. destruct (with_keys_snd key items kl Hkl) as [<- _].
  by rewrite DialogFacts.sort_desc_perm.
Qed.

Lemma filter_keyed (key : A → result Q) (k : Q) l :
  Forall (λ ka, key ka.2 = Ok ka.1) l →
  List.filter (λ a, match key a with Ok b => Qeq_bool b k | Raise _ => false end)
    l.*2 = (with_key k l).*2.
Proof.
  induction 1 as [|[b a] l Hb _ IH]; [done|].
  unfold with_key in *. simpl in Hb. rewrite fmap_cons.
  cbn [List.filter snd fst]. rewrite Hb.
  destruct (Qeq_bool b k); [rewrite fmap_cons; f_equal|]; exact IH.
Qed.

End Stable.

Section Facts.
Context `{Env}.
Variable current_dir : string.

Implicit Types (d : Deletion) (item : Item) (fs : FS) (ev : list event).

Lemma scan_pdf_files_perm fs :
  (scan_pdf_files current_dir fs).2 ≡ₚ glob_pdf current_dir fs.
Proof.
  unfold scan_pdf_files.
  destruct (py_sort_reverse _ _) as [sorted|e] eqn:Hs; [|done].
  by apply py_sort_reverse_perm in Hs.
Qed.

(** X8.  Whether or not the sort succeeds, the scan returns what glob
    returned, each path once and no other; when the path of the directory
    has none of the characters *, ? and [, these are the entries of the
    directory whose name does not begin with a dot and ends in ".pdf". *)
Theorem scan_returns_the_matching_entries fs :
  (scan_pdf_files current_dir fs).2 ≡ₚ glob_pdf current_dir fs ∧
  (has_magic current_dir = false →
   ∀ p, p ∈ (scan_pdf_files current_dir fs).2 ↔
        ∃ name, name ∈ listdir fs current_dir ∧ ishidden name = false ∧
                ends_with ".pdf" (normcase name) = true ∧
                p = path_join current_dir name).
Proof.
  pose proof (scan_pdf_files_perm fs) as Hperm.
  split; [done|]. intros Hplain p. rewrite Hperm.
  by apply DialogFacts.elem_of_glob_pdf.
Qed.

(** X9.  When the modification time of one matching entry cannot be read,
    the scan prints the error and returns the matching entries unsorted, in
    the order of the directory. *)
Theorem scan_is_unsorted_when_a_time_is_unreadable fs p :
  p ∈ glob_pdf current_dir fs → is_ok (getmtime fs p) = false →
  ∃ e, scan_pdf_files current_dir fs
         = ([EvPrint ("扫描错误: " +:+ e)], glob_pdf current_dir fs).
Proof.
  intros Hin Hp. unfold scan_pdf_files, py_sort_reverse.
  pose proof (DialogFacts.with_keys_raise (getmtime fs) _ p Hin Hp) as Hraise.
  destruct (with_keys (getmtime fs) (glob_pdf current_dir fs)) as [kl|e];
    [done|]. by exists e.
Qed.

(** X10.  The sort is stable: the returned entries that share a
    modification time stand in the order of the directory. *)
Theorem scan_keeps_ties_in_directory_order fs (k : Q) :
  List.filter (modified_at fs k) (scan_pdf_files current_dir fs).2
    = List.filter (modified_at fs k) (glob_pdf current_dir fs).
Proof.
  unfold scan_pdf_files, py_sort_reverse.
  destruct (with_keys (getmtime fs) (glob_pdf current_dir fs)) as [kl|e] eqn:Hkl;
    [|done].
  destruct (with_keys_snd _ _ _ Hkl) as [Hitems Hall]. simpl.
  rewrite <- Hitems. unfold modified_at.
  rewrite !filter_keyed; [by rewrite with_key_sort_desc|done|].
  by rewrite DialogFacts.sort_desc_perm.
Qed.

(** ** Deleting *)

Lemma saves_finish d : saves (events (finish d)) = saves (events d).
Proof.
  unfold finish, saves, report. simpl. rewrite omap_app.
  destruct (failed_files d); simpl; by rewrite app_nil_r.
Qed.

Lemma failed_saves_finish d :
  failed_saves (events (finish d)) = failed_saves (events d).
Proof.
  unfold finish, failed_saves, report. simpl. rewrite omap_app.
  destruct (failed_files d); simpl; by rewrite app_nil_r.
Qed.

(** X11.  Without a selection, or when the confirmation is declined,
    nothing happens besides the one dialog: os.remove and
    save_reading_positions are not called, and the file system and the
    reading positions are as before. *)
Theorem nothing_is_deleted_without_confirmation (selected_items : list Item)
    (reply : bool) (fs0 : FS) (positions : gmap string Z) :
  selected_items = [] ∨ reply = false →
  let d := delete_selected_files selected_items reply fs0 positions in
  removals (events d) = [] ∧ saves (events d) = [] ∧
  Dialog.fs d = fs0 ∧ reading_positions d = positions ∧
  length (events d) = 1 ∧ deleted_count d = 0.
Proof.
  intros Hno d. unfold d, delete_selected_files.
  destruct selected_items as [|item items]; [done|].
  destruct Hno as [?| ->]; done.
Qed.

Lemma delete_item_without_entry d item :
  reading_positions d !! abspath (item_path item) = None →
  reading_positions (delete_item d item) = reading_positions d ∧
  saves (events (delete_item d item)) = saves (events d).
Proof.
  intros Hnone. unfold delete_item. rewrite Hnone.
  destruct (remove (Dialog.fs d) (item_path item)) as [fs1 [[]|e]];
    unfold saves; simpl; rewrite !omap_app; simpl; by rewrite app_nil_r.
Qed.

Lemma delete_loop_without_entries (items : list Item) d :
  (∀ item, item ∈ items →
           reading_positions d !! abspath (item_path item) = None) →
  reading_positions (delete_loop items d) = reading_positions d ∧
  saves (events (delete_loop items d)) = saves (events d).
Proof.
  revert d. induction items as [|item items IH]; intros d Hnone; [done|].
  rewrite DialogFacts.delete_loop_cons.
  destruct (delete_item_without_entry d item) as [Hp Hs].
  { apply Hnone. by left. }
  destruct (IH (delete_item d item)) as [Hp' Hs'].
  { intros item' Hin. rewrite Hp. apply Hnone. by right. }
  by rewrite Hp', Hs', Hp, Hs.
Qed.

(** X12.  When no selected file has a reading position, deleting leaves
    the reading positions as they are and never calls
    save_reading_positions, whatever os.remove does. *)
Theorem deleting_unread_files_never_saves (selected_items : list Item)
    (reply : bool) (fs0 : FS) (positions : gmap string Z) :
  (∀ item, item ∈ selected_items →
           positions !! abspath (item_path item) = None) →
  let d := delete_selected_files selected_items reply fs0 positions in
  reading_positions d = positions ∧ saves (events d) = [].
Proof.
  intros Hnone d. unfold d, delete_selected_files.
  destruct selected_items as [|item items]; [done|].
  destruct reply; [|done].
  rewrite saves_finish.
  by apply (delete_loop_without_entries (item :: items)
              (start fs0 positions
                 [EvQuestion "确认删除"
                    (confirm_text (length (item :: items)))])).
Qed.

Lemma all_removed (items : list Item) (rs : list (string * bool)) :
  Forall2 (λ item r, r.1 = item_path item ∧ (r.2 = false → False)) items rs →
  rs = (λ item, (item_path item, true)) <$> items.
Proof.
  induction 1 as [|item [p ok] items rs [Hp Hok] _ IH]; [done|].
  rewrite fmap_cons, <- IH. simpl in Hp, Hok. subst p.
  destruct ok; [done|]. by destruct Hok.
Qed.

(** X13.  When a confirmed deletion collects no failure, os.remove
    returned for every selected file, and the one message box is the
    information box whose count is the number of selected files. *)
Theorem success_message_counts_every_file (selected_items : list Item)
    (fs0 : FS) (positions : gmap string Z) :
  selected_items ≠ [] →
  let d := delete_selected_files selected_items true fs0 positions in
  failed_files d = [] →
  removals (events d) = (λ item, (item_path item, true)) <$> selected_items ∧
  message_boxes (events d)
    = [EvInformation "成功"
         ("已成功删除 " +:+ pretty (length selected_items) +:+ " 个文件")].
Proof.
  intros Hsel d. unfold d, delete_selected_files.
  destruct selected_items as [|item items]; [done|].
  set (d0 := start fs0 positions
                [EvQuestion "确认删除" (confirm_text (length (item :: items)))]).
  set (l := item :: items) in *.
  change (failed_files (finish (delete_loop l d0)))
    with (failed_files (delete_loop l d0)).
  intros Hnone.
  destruct (DialogFacts.delete_loop_removals l d0) as (rs & Hr & Hall).
  destruct (DialogFacts.delete_loop_failed_files l d0) as (more & Hf & Hc).
  rewrite DialogFacts.removals_finish, DialogFacts.message_boxes_finish,
    DialogFacts.delete_loop_message_boxes, Hr.
  rewrite Hnone in Hf, Hall. simpl in Hf. subst more.
  change (deleted_count d0) with 0 in Hc.
  change (length (@nil string)) with 0 in Hc.
  change (removals (events d0) ++ rs) with rs.
  change (message_boxes (events d0) ++ [report (delete_loop l d0)])
    with [report (delete_loop l d0)].
  split.
  - apply all_removed. eapply Forall2_impl; [exact Hall|].
    intros item' r [Hp Hline]. split; [done|]. intros Hfalse.
    destruct (Hline Hfalse) as [e He]. by apply elem_of_nil in He.
  - unfold report. rewrite Hnone.
    replace (deleted_count (delete_loop l d0)) with (length l) by lia.
    reflexivity.
Qed.

Lemma delete_item_counts d item :
  deleted_count (delete_item d item)
    + length (failed_saves (events (delete_item d item)))
    + length (removed (events d))
  = deleted_count d + length (failed_saves (events d))
    + length (removed (events (delete_item d item))).
Proof.
  unfold delete_item.
  destruct (remove (Dialog.fs d) (item_path item)) as [fs1 [[]|e]].
  - destruct (reading_positions d !! abspath (item_path item)).
    + destruct (save_reading_positions _ fs1) as [fs2 [[]|e]];
        unfold failed_saves, removed; simpl;
        rewrite !omap_app, !length_app; simpl; lia.
    + unfold failed_saves, removed; simpl.
      rewrite !omap_app, !length_app; simpl; lia.
  - unfold failed_saves, removed; simpl.
    rewrite !omap_app, !length_app; simpl; lia.
Qed.

Lemma delete_loop_counts (items : list Item) d :
  deleted_count (delete_loop items d)
    + length (failed_saves (events (delete_loop items d)))
    + length (removed (events d))
  = deleted_count d + length (failed_saves (events d))
    + length (removed (events (delete_loop items d))).
Proof.
  revert d. induction items as [|item items IH]; intros d; [done|].
  rewrite DialogFacts.delete_loop_cons.
  pose proof (IH (delete_item d item)). pose proof (delete_item_counts d item).
  lia.
Qed.

(** X14.  The count of deleted files is the number of files that
    os.remove removed less those for which saving the reading positions
    then raised: such a file is gone from the disk and yet reported as
    failed. *)
Theorem deleted_count_leaves_out_failed_saves (selected_items : list Item)
    (reply : bool) (fs0 : FS) (positions : gmap string Z) :
  let d := delete_selected_files selected_items reply fs0 positions in
  deleted_count d + length (failed_saves (events d))
    = length (removed (events d)).
Proof.
  intros d. unfold d, delete_selected_files.
  destruct selected_items as [|item items]; [done|].
  destruct reply; [|done].
  rewrite failed_saves_finish, DialogFacts.removed_finish.
  change (deleted_count (finish ?x)) with (deleted_count x).
  match goal with |- context [delete_loop ?l0 ?d1] =>
    pose proof (delete_loop_counts l0 d1) as Hc end.
  simpl in Hc |- *. lia.
Qed.

End Facts.

Import Samples MoreSamples.
#[local] Existing Instance posix.

Lemma scan_returns_the_matching_entries_witness :
  path_of "gone.pdf" ∈ (scan_pdf_files dir broken_shelf).2 ↔
  ∃ name, name ∈ listdir broken_shelf dir ∧ ishidden name = false ∧
          ends_with ".pdf" (normcase name) = true ∧
          path_of "gone.pdf" = path_join dir name.
Proof.
  apply (scan_returns_the_matching_entries dir broken_shelf). reflexivity.
Defined.

Lemma scan_is_unsorted_when_a_time_is_unreadable_witness :
  ∃ e, scan_pdf_files dir broken_shelf
         = ([EvPrint ("扫描错误: " +:+ e)],
            [path_of "a.pdf"; path_of "gone.pdf"; path_of "c.pdf"]).
Proof.
  apply (scan_is_unsorted_when_a_time_is_unreadable dir broken_shelf
           (path_of "gone.pdf")).
  - vm_compute. right. by left.
  - reflexivity.
Defined.

Lemma nothing_is_deleted_without_confirmation_witness :
  removals (events (delete_selected_files abc false shelf positions)) = [] ∧
  saves (events (delete_selected_files abc false shelf positions)) = [] ∧
  Dialog.fs (delete_selected_files abc false shelf positions) = shelf ∧
  reading_positions (delete_selected_files abc false shelf positions)
    = positions ∧
  length (events (delete_selected_files abc false shelf positions)) = 1 ∧
  deleted_count (delete_selected_files abc false shelf positions) = 0.
Proof.
  apply (nothing_is_deleted_without_confirmation abc false shelf positions).
  by right.
Defined.

Lemma deleting_unread_files_never_saves_witness :
  reading_positions (delete_selected_files abc true shelf ∅) = ∅ ∧
  saves (events (delete_selected_files abc true shelf ∅)) = [].
Proof.
  apply (deleting_unread_files_never_saves abc true shelf ∅).
  intros item _. apply lookup_empty.
Defined.

Lemma success_message_counts_every_file_witness :
  removals (events (delete_selected_files [item_of "a.pdf"; item_of "c.pdf"]
                      true shelf positions))
    = [(path_of "a.pdf", true); (path_of "c.pdf", true)] ∧
  message_boxes (events (delete_selected_files
                           [item_of "a.pdf"; item_of "c.pdf"]
                           true shelf positions))
    = [EvInformation "成功" ("已成功删除 " +:+ pretty 2 +:+ " 个文件")].
Proof.
  apply (success_message_counts_every_file
           [item_of "a.pdf"; item_of "c.pdf"] shelf positions).
  - discriminate.
  - reflexivity.
Defined.

End DialogMoreFacts.

(** * The list of the dialog *)

Module ListingFacts.
Import Dialog Listing.

Lemma prefix_app (n a b : string) :
  String.prefix n a = true → String.prefix n (a +:+ b) = true.
Proof.
  revert a. induction n as [|c n IH]; intros a.
  { intros _. by destruct (a +:+ b). }
  destruct a as [|c' a]; simpl; [done|].
  destruct (Ascii.ascii_dec c c'); [apply IH|done].
Qed.

Lemma contains_app (n a b : string) :
  contains n a = true → contains n (a +:+ b) = true.
Proof.
  induction a as [|c a IH].
  - destruct n as [|c n]; [|done]. intros _. by destruct b.
  - simpl.
    intros [Hp|Hc]%orb_true_iff; apply orb_true_iff.
    + left. by apply (prefix_app n (String c a) b).
    + right. by apply IH.
Qed.

Section Facts.
Context `{FileInfo}.
Variable current_dir : string.

Implicit Types (fs : FS) (w : Widgets) (positions : gmap string Z).

(** The entries that [add_rows] appends: one per file, as long as the
    sizes can be read. *)
Lemma add_rows_ok fs positions (files : list string) (added : list row) :
  (∀ p, p ∈ files → is_ok (getsize fs p) = true) →
  ∃ rs, add_rows fs positions files added = (added ++ rs, Ok tt) ∧
        Forall2 (λ p r, ∃ size, getsize fs p = Ok size ∧
                                r = row_for positions p size) files rs.
Proof.
  revert added. induction files as [|p files IH]; intros added Hok.
  - exists []. by rewrite app_nil_r.
  - simpl. pose proof (Hok p ltac:(by left)) as Hp.
    destruct (getsize fs p) as [size|] eqn:Hsize; [|done].
    destruct (IH (added ++ [row_for positions p size])) as (rs & Hadd & Hall).
    { intros p' Hin. apply Hok. by right. }
    exists (row_for positions p size :: rs). split.
    + unfold row_for in Hadd. rewrite Hadd. by rewrite <- app_assoc.
    + constructor; [by exists size|done].
Qed.

Lemma add_rows_raise fs positions (before after : list string) p e
    (added : list row) :
  (∀ p', p' ∈ before → is_ok (getsize fs p') = true) →
  getsize fs p = Raise e →
  ∃ rs, add_rows fs positions (before ++ p :: after) added
          = (added ++ rs, Raise e) ∧
        Forall2 (λ p r, ∃ size, getsize fs p = Ok size ∧
                                r = row_for positions p size) before rs.
Proof.
  revert added. induction before as [|p0 before IH]; intros added Hok Hp.
  - exists []. simpl. by rewrite Hp, app_nil_r.
  - simpl. pose proof (Hok p0 ltac:(by left)) as Hp0.
    destruct (getsize fs p0) as [size|] eqn:Hsize; [|done].
    destruct (IH (added ++ [row_for positions p0 size])) as (rs & Hadd & Hall);
      [by intros p' Hin; apply Hok; right|done|].
    exists (row_for positions p0 size :: rs). split.
    + unfold row_for in Hadd. rewrite Hadd. by rewrite <- app_assoc.
    + constructor; [by exists size|done].
Qed.

(** Whatever happens, an entry that can be selected carries a path of the
    list the loop walked through. *)
Lemma add_rows_paths fs positions (files : list string) (added : list row) :
  ∃ rs, (add_rows fs positions files added).1 = added ++ rs ∧
        ∀ item, item ∈ omap selectable rs → item_path item ∈ files.
Proof.
  revert added. induction files as [|p files IH]; intros added.
  - exists []. split; [by rewrite app_nil_r|]. by intros item ?%elem_of_nil.
  - simpl. destruct (getsize fs p) as [size|].
    + destruct (IH (added ++ [row_for positions p size])) as (rs & Hadd & Hin).
      exists (row_for positions p size :: rs). split.
      * unfold row_for in Hadd. rewrite Hadd. by rewrite <- app_assoc.
      * intros item. simpl. intros [->|Hitem]%elem_of_cons; [by left|].
        right. by apply Hin.
    + exists []. split; [by rewrite app_nil_r|]. by intros item ?%elem_of_nil.
Qed.

(** X15.  When the scan finds nothing, the list shows the placeholder
    alone, which cannot be selected, the status says that the directory has
    no PDF file, and delete_all_files finds nothing to delete. *)
Theorem empty_scan_shows_placeholder w fs positions :
  (scan_pdf_files current_dir fs).2 = [] →
  load_file_list current_dir w fs positions
    = ({| rows := [Placeholder "未找到PDF文件"];
          status_text := "当前目录没有PDF文件" |},
       (scan_pdf_files current_dir fs).1, Ok tt) ∧
  omap selectable (rows (load_file_list current_dir w fs positions).1.1) = [] ∧
  nothing_to_delete (load_file_list current_dir w fs positions).1.1 = true.
Proof.
  intros Hscan. unfold load_file_list.
  destruct (scan_pdf_files current_dir fs) as [ev files]. simpl in Hscan.
  by subst files.
Qed.

(** X16.  When the scan finds files and every size can be read, the list
    shows one selectable entry per file, in the order of the scan, carrying
    the path, the base name, and a text made of the name, the size in MB
    and, when the file has a reading position, that page counted from one;
    the status gives the number of entries. *)
Theorem list_shows_every_scanned_file w fs positions :
  (scan_pdf_files current_dir fs).2 ≠ [] →
  (∀ p, p ∈ (scan_pdf_files current_dir fs).2 →
        is_ok (getsize fs p) = true) →
  ∃ w', load_file_list current_dir w fs positions
          = (w', (scan_pdf_files current_dir fs).1, Ok tt) ∧
    Forall2 (λ p r, ∃ size, getsize fs p = Ok size ∧
                            r = row_for positions p size)
      (scan_pdf_files current_dir fs).2 (rows w') ∧
    status_text w'
      = "找到 " +:+ pretty (length (rows w')) +:+ " 个PDF文件".
Proof.
  intros Hne Hok. unfold load_file_list.
  destruct (scan_pdf_files current_dir fs) as [ev files]. simpl in Hne, Hok |- *.
  destruct (add_rows_ok fs positions files [] Hok) as (rs & Hadd & Hall).
  destruct files as [|p files]; [done|].
  rewrite Hadd. simpl app. eexists. split; [reflexivity|]. simpl.
  split; [done|]. by rewrite <- (Forall2_length _ _ _ Hall).
Qed.

(** X17.  When the size of a scanned file cannot be read, the exception
    leaves load_file_list: the list holds the entries of the files scanned
    before it and nothing else, and the status keeps its former text. *)
Theorem unreadable_size_leaves_partial_list w fs positions
    (before after : list string) p e :
  (scan_pdf_files current_dir fs).2 = before ++ p :: after →
  (∀ p', p' ∈ before → is_ok (getsize fs p') = true) →
  getsize fs p = Raise e →
  ∃ rs, load_file_list current_dir w fs positions
          = ({| rows := rs; status_text := status_text w |},
             (scan_pdf_files current_dir fs).1, Raise e) ∧
    Forall2 (λ p r, ∃ size, getsize fs p = Ok size ∧
                            r = row_for positions p size) before rs.
Proof.
  intros Hscan Hok Hp. unfold load_file_list.
  destruct (scan_pdf_files current_dir fs) as [ev files]. simpl in Hscan |- *.
  subst files.
  destruct (add_rows_raise fs positions before after p e [] Hok Hp)
    as (rs & Hadd & Hall).
  rewrite Hadd. exists rs.
  split; [|done]. by destruct before.
Qed.

(** X18.  When the path of the directory has none of the characters *,
    ? and [, opening a selection whose first item is an entry of the list,
    as load_file_list built it, hands load_pdf_file the path of an entry of
    the directory that the pattern matches. *)
Theorem opening_a_listed_entry_loads_a_matching_file w fs positions
    item (rest : list Item) :
  has_magic current_dir = false →
  item ∈ omap selectable
           (rows (load_file_list current_dir w fs positions).1.1) →
  loads (open_selected_file (item :: rest)).1 = [item_path item] ∧
  ∃ name, name ∈ listdir fs current_dir ∧ ishidden name = false ∧
          ends_with ".pdf" (normcase name) = true ∧
          item_path item = path_join current_dir name.
Proof.
  intros Hplain Hin. split.
  { unfold open_selected_file. by destruct (load_pdf_file (item_path item)). }
  apply (DialogFacts.elem_of_glob_pdf current_dir fs _ Hplain).
  rewrite <- (DialogMoreFacts.scan_pdf_files_perm current_dir fs).
  revert Hin. unfold load_file_list.
  destruct (scan_pdf_files current_dir fs) as [ev files]. simpl.
  destruct files as [|p files]; [by intros ?%elem_of_nil|].
  destruct (add_rows_paths fs positions (p :: files) []) as (rs & Hadd & Hpaths).
  destruct (add_rows fs positions (p :: files) []) as [added [[]|e]];
    simpl in Hadd |- *; subst added; apply Hpaths.
Qed.

(** X19.  A directory whose only PDF file has the text of the placeholder
    in its name is taken for an empty one: after load_file_list shows its
    entry, delete_all_files finds nothing to delete. *)
Theorem placeholder_name_blocks_delete_all w fs positions p (size : Z) :
  (scan_pdf_files current_dir fs).2 = [p] →
  getsize fs p = Ok size →
  contains "未找到PDF文件" (basename p) = true →
  rows (load_file_list current_dir w fs positions).1.1
    = [row_for positions p size] ∧
  nothing_to_delete (load_file_list current_dir w fs positions).1.1 = true.
Proof.
  intros Hscan Hsize Hname. unfold load_file_list.
  destruct (scan_pdf_files current_dir fs) as [ev files]. simpl in Hscan.
  subst files. simpl. rewrite Hsize. simpl. split; [done|].
  unfold nothing_to_delete. simpl. unfold display_text.
  destruct (positions !! abspath p); by apply contains_app.
Qed.

(** X20.  With two or more files listed, delete_all_files goes on to its
    confirmation. *)
Theorem two_listed_files_can_be_deleted w fs positions (p1 p2 : string)
    (more : list string) :
  (scan_pdf_files current_dir fs).2 = p1 :: p2 :: more →
  (∀ p, p ∈ (scan_pdf_files current_dir fs).2 →
        is_ok (getsize fs p) = true) →
  nothing_to_delete (load_file_list current_dir w fs positions).1.1 = false.
Proof.
  intros Hscan Hok. unfold load_file_list.
  destruct (scan_pdf_files current_dir fs) as [ev files]. simpl in Hscan, Hok.
  subst files.
  destruct (add_rows_ok fs positions (p1 :: p2 :: more) [] Hok)
    as (rs & Hadd & Hall).
  rewrite Hadd. simpl.
  apply Forall2_length in Hall. unfold nothing_to_delete. simpl.
  by destruct rs as [|r1 [|r2 rs]].
Qed.

End Facts.

Import Samples MoreSamples.
#[local] Existing Instance posix.
#[local] Existing Instance posix_info.

Lemma empty_scan_shows_placeholder_witness :
  load_file_list dir blank ([] : @FS posix) positions
    = ({| rows := [Placeholder "未找到PDF文件"];
          status_text := "当前目录没有PDF文件" |}, [], Ok tt) ∧
  omap selectable
    (rows (load_file_list dir blank ([] : @FS posix) positions).1.1) = [] ∧
  nothing_to_delete
    (load_file_list dir blank ([] : @FS posix) positions).1.1 = true.
Proof.
  apply (empty_scan_shows_placeholder dir blank ([] : @FS posix) positions).
  reflexivity.
Defined.

Lemma shelf_sizes_readable :
  ∀ p, p ∈ (scan_pdf_files dir shelf).2 → is_ok (getsize shelf p) = true.
Proof.
  intros p Hp. vm_compute in Hp.
  repeat (apply elem_of_cons in Hp as [->|Hp]; [reflexivity|]).
  by apply elem_of_nil in Hp.
Defined.

Lemma list_shows_every_scanned_file_witness :
  ∃ w', load_file_list dir blank shelf positions
          = (w', (scan_pdf_files dir shelf).1, Ok tt) ∧
    Forall2 (λ p r, ∃ size, getsize shelf p = Ok size ∧
                            r = row_for positions p size)
      (scan_pdf_files dir shelf).2 (rows w') ∧
    status_text w' = "找到 " +:+ pretty (length (rows w')) +:+ " 个PDF文件".
Proof.
  apply (list_shows_every_scanned_file dir blank shelf positions).
  - vm_compute. discriminate.
  - exact shelf_sizes_readable.
Defined.

Lemma unreadable_size_leaves_partial_list_witness :
  ∃ rs, @load_file_list posix strict_info dir blank shelf positions
          = ({| rows := rs; status_text := EmptyString |},
             (scan_pdf_files dir shelf).1, Raise "Permission denied") ∧
    Forall2 (λ p r, ∃ size, @getsize posix strict_info shelf p = Ok size ∧
                            r = @row_for posix strict_info positions p size)
      [] rs.
Proof.
  apply (@unreadable_size_leaves_partial_list posix strict_info dir blank shelf
           positions [] [path_of "c.pdf"; path_of "a.pdf"] (path_of "b.pdf")).
  - reflexivity.
  - by intros p ?%elem_of_nil.
  - reflexivity.
Defined.

Lemma opening_a_listed_entry_loads_a_matching_file_witness :
  let item := {| item_text := "b.pdf (0.2MB) - 读到第8页";
                 item_path := path_of "b.pdf"; item_name := "b.pdf" |} in
  loads (open_selected_file [item; item_of "a.pdf"]).1 = [path_of "b.pdf"] ∧
  ∃ name, name ∈ listdir shelf dir ∧ ishidden name = false ∧
          ends_with ".pdf" (normcase name) = true ∧
          path_of "b.pdf" = path_join dir name.
Proof.
  intros item.
  apply (opening_a_listed_entry_loads_a_matching_file dir blank shelf positions
           item [item_of "a.pdf"]); [reflexivity|].
  vm_compute. by left.
Defined.

Lemma placeholder_name_blocks_delete_all_witness :
  rows (load_file_list dir blank odd_shelf positions).1.1
    = [row_for positions (path_of "未找到PDF文件.pdf") 3145728] ∧
  nothing_to_delete (load_file_list dir blank odd_shelf positions).1.1 = true.
Proof.
  apply (placeholder_name_blocks_delete_all dir blank odd_shelf positions);
    reflexivity.
Defined.

Lemma two_listed_files_can_be_deleted_witness :
  nothing_to_delete (load_file_list dir blank shelf positions).1.1 = false.
Proof.
  apply (two_listed_files_can_be_deleted dir blank shelf positions
           (path_of "b.pdf") (path_of "c.pdf") [path_of "a.pdf"]).
  - reflexivity.
  - exact shelf_sizes_readable.
Defined.

End ListingFacts.
